(** * tree.py: a directory tree printer filtered by [.treeignore] rules

    A shallow embedding of [src/tree.py] together with the properties its
    specification states about it.  The file has five parts: the program;
    the notions used to state its properties; the pattern matcher, which the
    program takes from the [pathspec] package; sample trees; and the
    properties.

    Conventions of the embedding.
    - A path is the list of its components below the filesystem root, so
      [os.path.join(d, item)] appends one component and the list for ["/"]
      is empty.  Every path the program builds starts from
      [os.path.abspath('.')], hence is absolute and normalised.
    - A file name is the [string] of its UTF-8 bytes.  Python orders [str]
      values by code point, and on UTF-8 that is the order of the bytes.
    - The operating system is a record of the four calls the program makes;
      [os_of] implements it on a finite directory tree.  The system does not
      change during a run.
    - What the program does is recorded as a list of events (entering
      [print_tree], asking the matcher, printing a line) together with the
      way the run ended.  [print_tree] calls itself once for every level
      of the tree, and the interpreter bounds the depth of nested calls:
      the argument [fuel] of [print_tree] is the number of nested calls of
      [print_tree] that its recursion limit leaves room for, and the
      outcome [OutOfFuel] is that of the call for which no room is left,
      which raises [RecursionError] ([print_tree_within], [main_within]).
      A tree whose height is below that number is walked in full
      ([fuel_suffices]), and a larger limit then changes nothing
      ([more_fuel]).  A failing [print] is left out.
    - The [pathspec] package is not part of the repository: a compiled
      [PathSpec] is a record holding its [match_file] method, and the
      program is parameterised by the function that compiles the rule
      lines.  Module [Gitwildmatch] models both from the specification. *)

From Stdlib Require Import List String Ascii Bool Arith NArith Lia.
From Stdlib Require Import Sorting.Sorted Sorting.Permutation.
Import ListNotations.

Set Warnings "-register-all".
Open Scope string_scope.
Open Scope list_scope.

(* ================================================================= *)
(** * The program *)

(* ================================================================= *)
(** ** Paths *)

(** A path: its components below the filesystem root. *)
Definition path := list string.

(** [os.path.join(dir_path, item)] for a single-component [item]. *)
Definition join (dir_path : path) (item : string) : path := dir_path ++ [item].

(** [os.path.commonprefix] on two component lists. *)
Fixpoint commonprefix (a b : path) : path :=
  match a, b with
  | x :: a', y :: b' => if String.eqb x y then x :: commonprefix a' b' else []
  | _, _ => []
  end.

(** [os.path.relpath(p, start)]:
    [i = len(commonprefix([start_list, path_list]))],
    [rel_list = [pardir] * (len(start_list) - i) + path_list[i:]],
    ['.'] when [rel_list] is empty, else its components joined by [os.sep]. *)
Definition relpath (p start : path) : string :=
  let i := List.length (commonprefix start p) in
  let rel_list := repeat ".." (List.length start - i) ++ skipn i p in
  match rel_list with
  | [] => "."
  | _ => String.concat "/" rel_list
  end.

(** [Path(s).as_posix()]: [relpath] already yields a normalised path whose
    separator is ["/"], which [as_posix] leaves as it is. *)
Definition as_posix (s : string) : string := s.

(* ================================================================= *)
(** ** The operating system *)

(** The exceptions of a run.  [OSError] stands for the errors of the
    operating system that have no constructor of their own, [PatternError]
    for what [pathspec] raises; [UnicodeDecodeError] is raised by reading a
    file that is not text, and [RecursionError] by a call that would exceed
    the recursion limit of the interpreter. *)
Inductive exn : Type :=
| PermissionError
| FileNotFoundError
| NotADirectoryError
| IsADirectoryError
| OSError
| PatternError
| UnicodeDecodeError
| RecursionError.

(** The calls the program makes on the operating system. *)
Record OS : Type := {
  os_listdir : path -> exn + list string;      (* os.listdir *)
  os_path_isdir : path -> bool;                (* os.path.isdir *)
  os_path_exists : path -> bool;               (* os.path.exists *)
  os_read_lines : path -> exn + list string    (* open(p).read().splitlines() *)
}.

(** A finite directory tree.  A directory is [Listable], or listing it is
    [Denied] (PermissionError), or listing it fails in another way
    ([Faulty], some other OSError). *)
Inductive access : Type := Listable | Denied | Faulty.

Inductive node : Type :=
| File (lines : list string)
| Dir (a : access) (entries : list (string * node)).

(** The entry of a given name, and the node at a path. *)
Fixpoint lookup {A : Type} (name : string) (es : list (string * A)) : option A :=
  match es with
  | [] => None
  | (n, c) :: es' => if String.eqb n name then Some c else lookup name es'
  end.

Fixpoint resolve (t : node) (p : path) : option node :=
  match p with
  | [] => Some t
  | name :: rest =>
      match t with
      | Dir _ es =>
          match lookup name es with
          | Some c => resolve c rest
          | None => None
          end
      | File _ => None
      end
  end.

(** The four calls on the node found at a path. *)
Definition node_listdir (t : option node) : exn + list string :=
  match t with
  | Some (Dir Listable es) => inr (map fst es)
  | Some (Dir Denied _) => inl PermissionError
  | Some (Dir Faulty _) => inl OSError
  | Some (File _) => inl NotADirectoryError
  | None => inl FileNotFoundError
  end.

Definition node_isdir (t : option node) : bool :=
  match t with
  | Some (Dir _ _) => true
  | _ => false
  end.

Definition node_exists (t : option node) : bool :=
  match t with
  | Some _ => true
  | None => false
  end.

(** In a directory tree every file can be opened and read as text;
    [unreadable] below gives a system in which one cannot. *)
Definition node_read_lines (t : option node) : exn + list string :=
  match t with
  | Some (File ls) => inr ls
  | Some (Dir _ _) => inl IsADirectoryError
  | None => inl FileNotFoundError
  end.

(** The operating system whose filesystem is the tree [fs]. *)
Definition os_of (fs : node) : OS := {|
  os_listdir := fun p => node_listdir (resolve fs p);
  os_path_isdir := fun p => node_isdir (resolve fs p);
  os_path_exists := fun p => node_exists (resolve fs p);
  os_read_lines := fun p => node_read_lines (resolve fs p)
|}.

(* ================================================================= *)
(** ** The matcher object *)

(** A compiled [PathSpec], seen through the one method the program calls. *)
Record PathSpec : Type := { match_file : string -> bool }.

(** [should_ignore(relative_posix_path, pathspec)] *)
Definition should_ignore (relative_posix_path : string) (pathspec : PathSpec) : bool :=
  match_file pathspec relative_posix_path.

(** [load_treeignore_patterns(ignore_file)]; [from_lines] stands for
    [PathSpec.from_lines('gitwildmatch', _)], which may raise. *)
Definition load_treeignore_patterns (o : OS)
    (from_lines : list string -> exn + PathSpec) (ignore_file : path)
    : exn + PathSpec :=
  if os_path_exists o ignore_file then
    match os_read_lines o ignore_file with
    | inl e => inl e
    | inr patterns => from_lines patterns
    end
  else from_lines [].

(* ================================================================= *)
(** ** Printed lines, events and runs *)

(** Box-drawing glyphs, as their UTF-8 bytes. *)
Definition LAST_CONNECTOR : string := "└── ".
Definition MID_CONNECTOR : string := "├── ".
Definition LAST_INDENT : string := "    ".
Definition MID_INDENT : string := "│   ".

(** One constructor for each [print] statement of the program, holding the
    fields of its format string. *)
Inductive line : Type :=
| RootLine (root_name : string)
| DirLine (prefix connector display_name : string)
| FileLine (prefix connector item : string)
| DeniedLine (prefix : string).

(** colorama's escape sequences. *)
Definition ESC : string := String (ascii_of_nat 27) "".
Definition Fore_GREEN : string := (ESC ++ "[32m")%string.
Definition Fore_BLUE : string := (ESC ++ "[34m")%string.
Definition Style_BRIGHT : string := (ESC ++ "[1m")%string.

(** The string handed to [print] for a line: the value of the format
    string of its [print] statement.  It is not what reaches the terminal:
    after [init(autoreset=True)] the stream [print] writes to is colorama's
    wrapper, which strips the escape codes when the output is no terminal
    and adds a reset code after each write when it is.  The wrapper belongs
    to the colorama package and is not modelled. *)
Definition print_arg (l : line) : string :=
  match l with
  | RootLine root_name => (Fore_GREEN ++ Style_BRIGHT ++ root_name ++ "/")%string
  | DirLine prefix connector display_name =>
      (prefix ++ connector ++ Fore_BLUE ++ Style_BRIGHT ++ display_name)%string
  | FileLine prefix connector item => (prefix ++ connector ++ item)%string
  | DeniedLine prefix => (prefix ++ LAST_CONNECTOR ++ "[Permission Denied]")%string
  end.

(** What a run does, as far as the properties below need it. *)
Inductive event : Type :=
| Enter (dir_path : path) (prefix : string)   (* print_tree is entered and lists dir_path *)
| Match (relative_posix_path : string)        (* pathspec.match_file is asked *)
| Print (l : line).                           (* a line is printed *)

(** How a run ends. *)
Inductive outcome : Type :=
| Done                (* returned normally *)
| Raised (e : exn)    (* an exception left the function *)
| OutOfFuel.          (* the bound on the recursion depth was reached *)

(** A run: the events in order, and how it ended. *)
Definition run : Type := (list event * outcome)%type.

(** Sequencing: the second run happens only when the first returned. *)
Definition seq (a b : run) : run :=
  match snd a with
  | Done => (fst a ++ fst b, snd b)
  | _ => a
  end.

(** The run that produces [evs] and returns. *)
Definition emit (evs : list event) : run := (evs, Done).

(* ================================================================= *)
(** ** [sorted] *)

(** Puts [x] before the first element that is not below it. *)
Fixpoint insert (x : string) (l : list string) : list string :=
  match l with
  | [] => [x]
  | y :: l' => if String.leb x y then x :: l else y :: insert x l'
  end.

(** [sorted(names)] on strings: the ascending arrangement of the list. *)
Fixpoint sorted (l : list string) : list string :=
  match l with
  | [] => []
  | x :: l' => insert x (sorted l')
  end.

(* ================================================================= *)
(** ** [print_tree] and [main] *)

(** The name shown for the root:
    [os.path.basename(root_dir.rstrip(os.sep))], and [root_dir] itself,
    which then is ["/"], when that is empty. *)
Definition root_name_of (root_dir : path) : string :=
  let root_name := last root_dir "" in
  if String.eqb root_name "" then "/" else root_name.

Section Renderer.

Variable o : OS.

(** The path handed to the matcher for [item] of [dir_path]: relative to
    the root, POSIX form, with a trailing slash for a directory. *)
Definition matcher_path (dir_path root_path : path) (item : string) : string :=
  let item_full_path := join dir_path item in
  let relative_path := relpath item_full_path root_path in
  let relative_posix_path := as_posix relative_path in
  if os_path_isdir o item_full_path
  then (relative_posix_path ++ "/")%string
  else relative_posix_path.

(** The first loop: the items that are not ignored, in order. *)
Definition filter_items (dir_path root_path : path) (pathspec : PathSpec)
    (items : list string) : list string :=
  filter (fun item => negb (should_ignore (matcher_path dir_path root_path item) pathspec))
         items.

(** The matcher is asked once for every item, in order. *)
Definition filter_events (dir_path root_path : path) (items : list string)
    : list event :=
  map (fun item => Match (matcher_path dir_path root_path item)) items.

(** The second loop, from position [index] on; [rec] is the recursive call.
    (The loop also recomputes the relative path of the item, which it does
    not use.) *)
Fixpoint print_items (rec : path -> string -> run) (dir_path : path)
    (prefix : string) (total_items index : nat) (items : list string) : run :=
  match items with
  | [] => emit []
  | item :: rest =>
      let item_full_path := join dir_path item in
      let is_last_item := Nat.eqb index (total_items - 1) in
      let connector := if is_last_item then LAST_CONNECTOR else MID_CONNECTOR in
      seq (if os_path_isdir o item_full_path then
             let display_name := (item ++ "/")%string in
             let new_prefix :=
               (prefix ++ (if is_last_item then LAST_INDENT else MID_INDENT))%string in
             seq (emit [Print (DirLine prefix connector display_name)])
                 (rec item_full_path new_prefix)
           else emit [Print (FileLine prefix connector item)])
          (print_items rec dir_path prefix total_items (S index) rest)
  end.

Fixpoint print_tree (fuel : nat) (dir_path : path) (prefix : string)
    (root_path : path) (pathspec : PathSpec) : run :=
  match fuel with
  | 0 => ([], OutOfFuel)
  | S fuel' =>
      match os_listdir o dir_path with
      | inl PermissionError =>
          emit [Enter dir_path prefix; Print (DeniedLine prefix)]
      | inl e => ([Enter dir_path prefix], Raised e)
      | inr names =>
          let items := sorted names in
          let filtered_items := filter_items dir_path root_path pathspec items in
          let total_items := List.length filtered_items in
          seq (emit (Enter dir_path prefix :: filter_events dir_path root_path items))
              (print_items (fun p pre => print_tree fuel' p pre root_path pathspec)
                           dir_path prefix total_items 0 filtered_items)
      end
  end.

(** [main], with the working directory [cwd = os.path.abspath('.')]. *)
Definition main (from_lines : list string -> exn + PathSpec) (fuel : nat)
    (cwd : path) : run :=
  let root_dir := cwd in
  let root_name := root_name_of root_dir in
  let ignore_file := join root_dir ".treeignore" in
  match load_treeignore_patterns o from_lines ignore_file with
  | inl e => ([], Raised e)
  | inr pathspec =>
      seq (emit [Print (RootLine root_name)])
          (print_tree fuel root_dir "" root_dir pathspec)
  end.

End Renderer.

(** The exit status of the interpreter: 0 when [main] returns, 1 when an
    exception leaves it. *)
Definition exit_status (r : run) : nat :=
  match snd r with
  | Done => 0
  | _ => 1
  end.

(* ================================================================= *)
(** ** The recursion limit *)

(** The interpreter raises [RecursionError] in the call that would exceed
    its recursion limit, and no handler of the program catches it: the
    [try] of [print_tree] holds [os.listdir] alone and names
    [PermissionError].  [at_limit] gives the run that ended for want of
    room its exception. *)
Definition at_limit (r : run) : run :=
  match snd r with
  | OutOfFuel => (fst r, Raised RecursionError)
  | _ => r
  end.

(** [print_tree] and [main] as the interpreter runs them when its recursion
    limit leaves room for [depth] nested calls of [print_tree], each with
    the calls it makes itself: the frames of the module, of [main] and of
    the functions of [os.path] and [pathlib] that [print_tree] calls take
    their share of the limit, so [depth] is below it. *)
Definition print_tree_within (o : OS) (depth : nat) (dir_path : path)
    (prefix : string) (root_path : path) (pathspec : PathSpec) : run :=
  at_limit (print_tree o depth dir_path prefix root_path pathspec).

Definition main_within (o : OS) (from_lines : list string -> exn + PathSpec)
    (depth : nat) (cwd : path) : run :=
  at_limit (main o from_lines depth cwd).

(** [sys.getrecursionlimit()] as CPython sets it.  The limit counts every
    frame, those of the module, of [main] and of the functions [print_tree]
    calls included, so fewer calls of [print_tree] than this can be nested
    unless the limit is raised. *)
Definition DEFAULT_RECURSION_LIMIT : nat := 1000.

(* ================================================================= *)
(** * Notions used to state the properties *)

(* ================================================================= *)
(** ** The second loop, item by item *)

(** The connector and the indentation chosen by [is_last_item]. *)
Definition connector_of (is_last_item : bool) : string :=
  if is_last_item then LAST_CONNECTOR else MID_CONNECTOR.

Definition indent_of (is_last_item : bool) : string :=
  if is_last_item then LAST_INDENT else MID_INDENT.

(** The line printed for a surviving child. *)
Definition child_line (o : OS) (dir_path : path) (prefix : string)
    (is_last_item : bool) (item : string) : line :=
  if os_path_isdir o (join dir_path item)
  then DirLine prefix (connector_of is_last_item) (item ++ "/")
  else FileLine prefix (connector_of is_last_item) item.

(** What one iteration of the second loop does. *)
Definition item_run (o : OS) (rec : path -> string -> run) (dir_path : path)
    (prefix : string) (is_last_item : bool) (item : string) : run :=
  if os_path_isdir o (join dir_path item)
  then seq (emit [Print (child_line o dir_path prefix is_last_item item)])
           (rec (join dir_path item) (prefix ++ indent_of is_last_item)%string)
  else emit [Print (child_line o dir_path prefix is_last_item item)].

(** Whether nothing follows. *)
Definition is_nil {A : Type} (l : list A) : bool :=
  match l with
  | [] => true
  | _ => false
  end.

(* ================================================================= *)
(** ** The lines of a run *)

(** The lines a run printed, in order. *)
Definition printed (tr : list event) : list line :=
  flat_map (fun e => match e with Print l => [l] | _ => [] end) tr.

(** An entry line printed under [prefix].  The lines of deeper levels carry
    a strictly longer prefix ([deeper_lines]). *)
Definition is_child_line (prefix : string) (l : line) : bool :=
  match l with
  | DirLine p _ _ | FileLine p _ _ => String.eqb p prefix
  | _ => false
  end.

(** The entry lines a run printed under [prefix]. *)
Definition child_lines (prefix : string) (tr : list event) : list line :=
  filter (is_child_line prefix) (printed tr).

(** The lines expected for the surviving children [items]: the last one
    with the closing connector, every other one with the middle connector. *)
Fixpoint expected_lines (o : OS) (dir_path : path) (prefix : string)
    (items : list string) : list line :=
  match items with
  | [] => []
  | item :: rest =>
      child_line o dir_path prefix (is_nil rest) item
      :: expected_lines o dir_path prefix rest
  end.

(** The connector a line carries. *)
Definition line_connector (l : line) : string :=
  match l with
  | DirLine _ connector _ | FileLine _ connector _ => connector
  | DeniedLine _ => LAST_CONNECTOR
  | RootLine _ => ""
  end.

(** The indentation that belongs to a connector. *)
Definition indent_for (connector : string) : string :=
  if String.eqb connector LAST_CONNECTOR then LAST_INDENT else MID_INDENT.

(** Every entry into [print_tree], but for the one that opens the events,
    directly follows the line of a directory and carries the prefix of that
    line extended by the indentation of its connector; [prev] is the event
    before [tr]. *)
Fixpoint enters_follow (prev : option event) (tr : list event) : Prop :=
  match tr with
  | [] => True
  | e :: tl =>
      match e, prev with
      | Enter _ pre', Some (Print (DirLine pre connector _)) =>
          pre' = (pre ++ indent_for connector)%string
      | Enter _ _, Some _ => False
      | _, _ => True
      end /\ enters_follow (Some e) tl
  end.

(** The last event of [prev] followed by [tr]. *)
Fixpoint last_event (prev : option event) (tr : list event) : option event :=
  match tr with
  | [] => prev
  | e :: tl => last_event (Some e) tl
  end.

(* ================================================================= *)
(** ** Order of names, and the paths presented to the matcher *)

(** The order of [sorted]: lexicographic, byte by byte, case-sensitive. *)
Definition le_name (a b : string) : Prop := String.leb a b = true.

(** The trailing slash of a directory. *)
Definition slash_if (b : bool) : string := if b then "/" else "".

Definition is_slash (c : ascii) : bool := Ascii.eqb c "/".

(** Whether a string holds a separator, and whether it ends with one. *)
Fixpoint has_slash (s : string) : bool :=
  match s with
  | EmptyString => false
  | String c s' => is_slash c || has_slash s'
  end.

Fixpoint ends_with_slash (s : string) : bool :=
  match s with
  | EmptyString => false
  | String c s' =>
      match s' with
      | EmptyString => is_slash c
      | String _ _ => ends_with_slash s'
      end
  end.

(** A name [os.listdir] can return: not empty, no separator inside. *)
Definition valid_name (n : string) : bool :=
  negb (String.eqb n "") && negb (has_slash n).

(** Every listing of the system gives such names only. *)
Definition valid_listings (o : OS) : Prop :=
  forall (p : path) (names : list string),
  os_listdir o p = inr names -> forallb valid_name names = true.

(* ================================================================= *)
(** ** A directory that cannot be listed *)

(** Equality of paths is decidable. *)
Definition path_eq_dec : forall p q : path, {p = q} + {p <> q} :=
  list_eq_dec string_dec.

(** The system in which [d] is a readable, empty directory and everything
    else is as in [o]. *)
Definition unlock (o : OS) (d : path) : OS := {|
  os_listdir := fun p => if path_eq_dec p d then inr [] else os_listdir o p;
  os_path_isdir := os_path_isdir o;
  os_path_exists := os_path_exists o;
  os_read_lines := os_read_lines o
|}.

(** Removes the marker line that directly follows the entry into [d]. *)
Fixpoint erase_marker (d : path) (tr : list event) : list event :=
  match tr with
  | [] => []
  | e :: tl =>
      match e, tl with
      | Enter p _, Print (DeniedLine _) :: tl' =>
          if path_eq_dec p d then e :: erase_marker d tl'
          else e :: erase_marker d tl
      | _, _ => e :: erase_marker d tl
      end
  end.

(** The events do not begin with a marker line. *)
Definition no_lead_marker (tr : list event) : Prop :=
  match tr with
  | Print (DeniedLine _) :: _ => False
  | _ => True
  end.

(** Two runs that agree up to the marker line of [d]. *)
Definition agree_up_to_marker (d : path) (r' r : run) : Prop :=
  snd r' = snd r /\ fst r' = erase_marker d (fst r) /\ no_lead_marker (fst r).

(** The system in which opening or reading the file [p] raises [e] and
    everything else is as in [o]. *)
Definition unreadable (o : OS) (p : path) (e : exn) : OS := {|
  os_listdir := os_listdir o;
  os_path_isdir := os_path_isdir o;
  os_path_exists := os_path_exists o;
  os_read_lines := fun q => if path_eq_dec q p then inl e else os_read_lines o q
|}.

(* ================================================================= *)
(** ** An excluded directory *)

(** The system in which [dir_path] has no entry [c] and everything else is
    as in [o]. *)
Definition hide (o : OS) (dir_path : path) (c : string) : OS := {|
  os_listdir := fun p =>
    match os_listdir o p with
    | inr names =>
        if path_eq_dec p dir_path
        then inr (filter (fun n => negb (String.eqb n c)) names)
        else inr names
    | inl e => inl e
    end;
  os_path_isdir := os_path_isdir o;
  os_path_exists := os_path_exists o;
  os_read_lines := os_read_lines o
|}.

(** The events other than the questions to the matcher: the directories
    entered and the lines printed. *)
Definition visible (tr : list event) : list event :=
  filter (fun e => match e with Match _ => false | _ => true end) tr.

(** Two runs with the same end and the same visible events. *)
Definition same_visible (r' r : run) : Prop :=
  snd r' = snd r /\ visible (fst r') = visible (fst r).

(* ================================================================= *)
(** ** Directory trees *)

(** The number of directory levels of a tree. *)
Fixpoint height (t : node) : nat :=
  match t with
  | File _ => 0
  | Dir _ es => S (list_max (map (fun e => let '(_, c) := e in height c) es))
  end.

(** No directory of the tree fails to list for another reason than denied
    access. *)
Fixpoint faultless (t : node) : bool :=
  match t with
  | File _ => true
  | Dir a es =>
      match a with Faulty => false | _ => true end
      && forallb (fun e => let '(_, c) := e in faultless c) es
  end.

(** The names that listing a directory gives. *)
Definition listing (a : access) (es : list (string * node)) : list string :=
  match a with
  | Listable => map fst es
  | _ => []
  end.

(** No name occurs twice. *)
Fixpoint nodupb (l : list string) : bool :=
  match l with
  | [] => true
  | x :: l' => negb (existsb (String.eqb x) l') && nodupb l'
  end.

(** No directory of the tree holds two entries of one name. *)
Fixpoint distinct_names (t : node) : bool :=
  match t with
  | File _ => true
  | Dir _ es =>
      nodupb (map fst es)
      && forallb (fun e => let '(_, c) := e in distinct_names c) es
  end.

(** The name shown for an entry: a directory carries a trailing slash. *)
Definition display_name (n : string) (c : node) : string :=
  match c with
  | Dir _ _ => (n ++ "/")%string
  | File _ => n
  end.

(** The shown names of all entries below [t] that the listings give, each
    entry once; what an unreadable directory holds is given by no listing. *)
Fixpoint all_entries (t : node) : list string :=
  match t with
  | Dir Listable es =>
      flat_map (fun e => let '(n, c) := e in display_name n c :: all_entries c) es
  | _ => []
  end.

(** The shown names of the entries below [t] in the order of a depth-first
    walk that takes the children of every directory in ascending order of
    their names. *)
Fixpoint walk (t : node) : list string :=
  match t with
  | Dir Listable es =>
      let below :=
        map (fun e => let '(n, c) := e in (n, display_name n c :: walk c)) es in
      flat_map (fun n => match lookup n below with Some l => l | None => [] end)
               (sorted (map fst es))
  | _ => []
  end.

(** The name an entry line shows. *)
Definition entry_name (l : line) : list string :=
  match l with
  | DirLine _ _ display_name => [display_name]
  | FileLine _ _ item => [item]
  | _ => []
  end.

(** A bound on the depth of the recursion started at [dir_path]. *)
Definition depth_bound (fs : node) (dir_path : path) : nat :=
  match resolve fs dir_path with
  | Some t => S (height t)
  | None => 1
  end.

(** The names shown by the entry lines of a run, in order. *)
Definition names_shown (tr : list event) : list string :=
  flat_map entry_name (printed tr).

(** The part of [walk] that belongs to the child named [n]. *)
Definition walk_child (es : list (string * node)) (n : string) : list string :=
  match lookup n es with
  | Some c => display_name n c :: walk c
  | None => []
  end.

(** Every name of the tree is one [os.listdir] can return. *)
Fixpoint valid_tree (t : node) : bool :=
  match t with
  | File _ => true
  | Dir _ es => forallb (fun e => let '(n, c) := e in valid_name n && valid_tree c) es
  end.

(* ================================================================= *)
(** ** Depth, prefixes and subsequences *)

(** The indentation of nested calls, the outermost first. *)
Fixpoint indents (bs : list bool) : string :=
  match bs with
  | [] => EmptyString
  | b :: bs' => (indent_of b ++ indents bs')%string
  end.

(** The prefix under which a line is printed; the root line has none. *)
Definition line_prefix (l : line) : option string :=
  match l with
  | RootLine _ => None
  | DirLine prefix _ _ | FileLine prefix _ _ | DeniedLine prefix => Some prefix
  end.

(** [subseq l l']: [l] is [l'] with some elements left out. *)
Inductive subseq {A : Type} : list A -> list A -> Prop :=
| subseq_nil : subseq [] []
| subseq_skip (x : A) (l l' : list A) : subseq l l' -> subseq l (x :: l')
| subseq_take (x : A) (l l' : list A) : subseq l l' -> subseq (x :: l) (x :: l').

(** Two systems that, at and below [start], list the same names, in
    whatever order, fail in the same way, and agree on which entries are
    directories. *)
Definition agree_below (start : path) (o o' : OS) : Prop :=
  (forall q, match os_listdir o (start ++ q), os_listdir o' (start ++ q) with
             | inr names, inr names' => Permutation names names'
             | inl e, inl e' => e = e'
             | _, _ => False
             end) /\
  (forall q, q <> [] ->
             os_path_isdir o (start ++ q) = os_path_isdir o' (start ++ q)).

(** A run that stopped with [e] right after the event [ev]. *)
Definition stopped_at (ev : event) (e : exn) (r : run) : Prop :=
  snd r = Raised e /\ exists t, fst r = t ++ [ev].

(* ================================================================= *)
(** * The pattern matcher *)

(** The [pathspec] package compiles the rule lines and decides
    [match_file]; it is not part of the repository.  The module below
    follows section 4.1 of the specification. *)
Module Gitwildmatch.

(** Modelled from the spec: the wildcards of a pattern ([pathspec]'s
    translation of a pattern is missing): a literal character, [?], [*],
    [**], [**/] and a bracket class. *)
Inductive glob : Type :=
| Lit (c : ascii)
| AnyChar
| Star
| DStar
| DStarDir
| Class (negated : bool) (ranges : list (ascii * ascii)).

(** Modelled from the spec: reading state of the pattern parser, outside or
    inside a bracket class ([pathspec]'s pattern parser is missing). *)
Inductive mode : Type :=
| Plain
| InClass (negated : bool) (ranges : list (ascii * ascii)).

(** Modelled from the spec: whether a bracket class opened here is closed
    ([pathspec]'s pattern parser is missing). *)
Fixpoint closes (s : string) : bool :=
  match s with
  | EmptyString => false
  | String c s' => Ascii.eqb c "]" || closes s'
  end.

(** Modelled from the spec: a pattern as a list of wildcards; an opening
    bracket that is never closed stands for itself ([pathspec]'s pattern
    parser is missing). *)
Fixpoint parse (m : mode) (s : string) : list glob :=
  match s with
  | EmptyString => []
  | String c s1 =>
      match m with
      | Plain =>
          if Ascii.eqb c "?" then AnyChar :: parse Plain s1
          else if Ascii.eqb c "[" then
            if closes s1 then
              match s1 with
              | String x s2 =>
                  if Ascii.eqb x "!" || Ascii.eqb x "^"
                  then parse (InClass true []) s2
                  else parse (InClass false []) s1
              | EmptyString => [Lit c]
              end
            else Lit c :: parse Plain s1
          else if Ascii.eqb c "*" then
            match s1 with
            | String x s2 =>
                if Ascii.eqb x "*" then
                  match s2 with
                  | String y s3 =>
                      if Ascii.eqb y "/" then DStarDir :: parse Plain s3
                      else DStar :: parse Plain s2
                  | EmptyString => [DStar]
                  end
                else Star :: parse Plain s1
            | EmptyString => [Star]
            end
          else Lit c :: parse Plain s1
      | InClass negated ranges =>
          if Ascii.eqb c "]" then Class negated (rev ranges) :: parse Plain s1
          else
            match s1 with
            | String x (String y s3) =>
                if Ascii.eqb x "-" && negb (Ascii.eqb y "]")
                then parse (InClass negated ((c, y) :: ranges)) s3
                else parse (InClass negated ((c, c) :: ranges)) s1
            | _ => parse (InClass negated ((c, c) :: ranges)) s1
            end
      end
  end.

(** Modelled from the spec: whether a character lies in a range of a
    bracket class ([pathspec]'s matching is missing). *)
Definition in_range (x : ascii) (r : ascii * ascii) : bool :=
  (N_of_ascii (fst r) <=? N_of_ascii x)%N && (N_of_ascii x <=? N_of_ascii (snd r))%N.

(** Modelled from the spec: matching a string against wildcards; [?], [*]
    and a class stay within a path segment, [**] crosses segments and [**/]
    stands for any number of leading directories ([pathspec]'s matching is
    missing). *)
Fixpoint gmatch (p : list glob) (s : string) {struct p} : bool :=
  match p with
  | [] => match s with EmptyString => true | _ => false end
  | Lit c :: p' =>
      match s with
      | String x s' => Ascii.eqb x c && gmatch p' s'
      | EmptyString => false
      end
  | AnyChar :: p' =>
      match s with
      | String x s' => negb (is_slash x) && gmatch p' s'
      | EmptyString => false
      end
  | Class negated ranges :: p' =>
      match s with
      | String x s' =>
          negb (is_slash x) && xorb negated (existsb (in_range x) ranges)
          && gmatch p' s'
      | EmptyString => false
      end
  | Star :: p' =>
      (fix star (s : string) : bool :=
         gmatch p' s
         || match s with
            | String x s' => negb (is_slash x) && star s'
            | EmptyString => false
            end) s
  | DStar :: p' =>
      (fix dstar (s : string) : bool :=
         gmatch p' s
         || match s with
            | String _ s' => dstar s'
            | EmptyString => false
            end) s
  | DStarDir :: p' =>
      gmatch p' s
      || (fix dirs (s : string) : bool :=
            match s with
            | String x s' => (is_slash x && gmatch p' s') || dirs s'
            | EmptyString => false
            end) s
  end.

(** Modelled from the spec: a compiled rule ([pathspec]'s pattern objects
    are missing): whether it negates, whether it is restricted to
    directories, whether it is anchored at the root, and its wildcards. *)
Record rule : Type := {
  negated : bool;
  dir_only : bool;
  anchored : bool;
  pattern : list glob
}.

(** Modelled from the spec: the path without the trailing slash that marks
    a directory ([pathspec]'s matching is missing). *)
Fixpoint chop_slash (s : string) : string :=
  match s with
  | EmptyString => EmptyString
  | String c s' =>
      match s' with
      | EmptyString => if is_slash c then EmptyString else s
      | String _ _ => String c (chop_slash s')
      end
  end.

(** Modelled from the spec: the segments of a path, split at the slashes
    ([pathspec]'s matching is missing). *)
Fixpoint segments (s : string) : list string :=
  match s with
  | EmptyString => [EmptyString]
  | String c s' =>
      if is_slash c then EmptyString :: segments s'
      else match segments s' with
           | seg :: rest => String c seg :: rest
           | [] => [String c EmptyString]
           end
  end.

(** Modelled from the spec: the basename of a path, its last segment, the
    slash that marks a directory set aside ([pathspec]'s matching is
    missing). *)
Definition basename (p : string) : string :=
  last (segments (chop_slash p)) EmptyString.

(** Modelled from the spec: the directories above a path, from the top,
    each as its segments ([pathspec]'s matching is missing). *)
Fixpoint above (segs : list string) : list (list string) :=
  match segs with
  | [] => []
  | seg :: rest =>
      match rest with
      | [] => []
      | _ :: _ => [seg] :: map (cons seg) (above rest)
      end
  end.

(** Modelled from the spec: compiling one line ([pathspec]'s
    [from_lines] is missing): an empty line and a line beginning with [#]
    give no rule; a leading [!] negates; a trailing [/] restricts the rule
    to directories; a leading [/] or a [/] inside anchors it at the root. *)
Definition compile_line (line : string) : option rule :=
  match line with
  | EmptyString => None
  | String c rest =>
      if Ascii.eqb c "#" then None
      else
        let neg := Ascii.eqb c "!" in
        let body := if neg then rest else line in
        let dironly := ends_with_slash body in
        let body := chop_slash body in
        let lead := match body with
                    | String x _ => is_slash x
                    | EmptyString => false
                    end in
        let body := match body with
                    | String x body' => if is_slash x then body' else body
                    | EmptyString => body
                    end in
        Some {| negated := neg;
                dir_only := dironly;
                anchored := lead || has_slash body;
                pattern := parse Plain body |}
  end.

(** Modelled from the spec: the rules of a list of lines, in file order
    ([pathspec]'s [from_lines] is missing). *)
Fixpoint compile (lines : list string) : list rule :=
  match lines with
  | [] => []
  | line :: lines' =>
      match compile_line line with
      | Some r => r :: compile lines'
      | None => compile lines'
      end
  end.

(** Modelled from the spec: what the wildcards of a rule are held against
    at a path ([pathspec]'s matching is missing): an anchored rule is
    matched against the whole path from the root, any other against the
    last segment, "the basename at any level". *)
Definition subject (r : rule) (segs : list string) : string :=
  if anchored r then String.concat "/" segs else last segs EmptyString.

(** Modelled from the spec: whether a rule matches a path ([pathspec]'s
    matching is missing).  It matches when its wildcards match a directory
    above the path, for a rule that matches a directory matches "everything
    beneath it"; and when they match the path itself, where a rule
    restricted to directories needs the trailing slash. *)
Definition rule_matches (r : rule) (p : string) : bool :=
  let segs := segments (chop_slash p) in
  existsb (fun d => gmatch (pattern r) (subject r d)) (above segs)
  || (negb (dir_only r && negb (ends_with_slash p))
      && gmatch (pattern r) (subject r segs)).

(** Modelled from the spec: the rules are tried in file order, and each
    rule that matches sets the outcome ([pathspec]'s [match_file] is
    missing). *)
Fixpoint decide (rules : list rule) (matched : bool) (p : string) : bool :=
  match rules with
  | [] => matched
  | r :: rules' =>
      decide rules' (if rule_matches r p then negb (negated r) else matched) p
  end.

(** Modelled from the spec: [PathSpec.from_lines('gitwildmatch', lines)]
    ([pathspec] is missing). *)
Definition from_lines (lines : list string) : PathSpec :=
  {| match_file := decide (compile lines) false |}.

(** The wildcards of a pattern without special characters. *)
Fixpoint literal (w : string) : list glob :=
  match w with
  | EmptyString => []
  | String c w' => Lit c :: literal w'
  end.

(** The rules of the lines "*.log" and "!keep.log". *)
Definition log_rules : list rule :=
  [ {| negated := false; dir_only := false; anchored := false;
       pattern := Star :: literal ".log" |};
    {| negated := true; dir_only := false; anchored := false;
       pattern := literal "keep.log" |} ].

End Gitwildmatch.

(* ================================================================= *)
(** * Sample trees *)

(** [r/] holds a file, a directory [a/] with an unreadable directory
    inside, a directory [build/] and the rule file. *)
Definition sample_fs : node :=
  Dir Listable
    [("r", Dir Listable
        [("b.txt", File []);
         ("a", Dir Listable
                 [("x.txt", File []);
                  ("sub", Dir Denied [("hidden", File [])])]);
         ("build", Dir Listable [("out.o", File [])]);
         (".treeignore", File ["build/"])])].

(** The same tree with every directory readable. *)
Definition open_fs : node :=
  Dir Listable
    [("r", Dir Listable
        [("b.txt", File []);
         ("a", Dir Listable [("x.txt", File []); ("sub", Dir Listable [])]);
         ("build", Dir Listable [("out.o", File [])])])].

(** A tree whose working directory cannot be listed. *)
Definition locked_fs : node := Dir Listable [("r", Dir Denied [])].

(** A matcher that excludes the directory [build/] of the root, a loader
    that returns it, and a matcher that excludes nothing. *)
Definition sample_rules : PathSpec :=
  {| match_file := fun p => String.eqb p "build/" |}.

Definition sample_loader (lines : list string) : exn + PathSpec :=
  inr sample_rules.

Definition no_rules : PathSpec := {| match_file := fun _ => false |}.

(** The claim of the specification on the rules "*.log" and "!keep.log":
    a path whose basename ends in ".log" is excluded, except a file named
    "keep.log", which is not. *)
Definition only_the_file_is_kept (pathspec : PathSpec) : Prop :=
  forall p stem,
  Gitwildmatch.basename p = (stem ++ ".log")%string ->
  (should_ignore p pathspec = false <->
   ends_with_slash p = false /\ Gitwildmatch.basename p = "keep.log").

(** The claim of the specification on a failure to list the root. *)
Definition root_failure_is_fatal (o : OS)
    (from_lines : list string -> exn + PathSpec) (fuel : nat) (cwd : path)
    : Prop :=
  forall e, os_listdir o cwd = inl e ->
            snd (main o from_lines fuel cwd) = Raised e /\
            exit_status (main o from_lines fuel cwd) <> 0.

(** A chain of [n] directories, each the only entry of the one above, and
    the tree that holds such a chain as the directory [r/]. *)
Fixpoint chain (n : nat) : node :=
  match n with
  | 0 => Dir Listable []
  | S n' => Dir Listable [("d", chain n')]
  end.

Definition deep_fs (n : nat) : node := Dir Listable [("r", chain n)].

(** The claim of the specification on a tree rendered without rules: the
    names on the lines of the entries are those of all entries of the
    working directory, each once. *)
Definition every_entry_shown_once (fs : node) (depth : nat) (cwd : path)
    : Prop :=
  forall t, resolve fs cwd = Some t ->
  Permutation
    (names_shown (fst (main_within (os_of fs) (fun _ => inr no_rules) depth cwd)))
    (all_entries t).

(** [r/] holds a directory [bad/] whose listing fails with an I/O error,
    between a directory and a file. *)
Definition faulty_fs : node :=
  Dir Listable
    [("r", Dir Listable
        [("a", Dir Listable [("x.txt", File [])]);
         ("bad", Dir Faulty []);
         ("z.txt", File [])])].

(** A tree in which [.treeignore] is a directory. *)
Definition dir_rules_fs : node :=
  Dir Listable
    [("r", Dir Listable
        [(".treeignore", Dir Listable []); ("b.txt", File [])])].

(** A matcher that excludes the file [a/x.txt]. *)
Definition file_rules : PathSpec :=
  {| match_file := fun p => String.eqb p "a/x.txt" |}.

(** A matcher that excludes every path, and a loader whose matcher excludes
    the paths written out in the lines. *)
Definition all_rules : PathSpec := {| match_file := fun _ => true |}.

Definition literal_loader (lines : list string) : exn + PathSpec :=
  inr {| match_file := fun p => existsb (String.eqb p) lines |}.

(** The system [o] with every listing given in reverse order, and in which
    no file but [keep] exists or can be read. *)
Definition scrambled (keep : path) (o : OS) : OS := {|
  os_listdir := fun p =>
    match os_listdir o p with
    | inl e => inl e
    | inr names => inr (rev names)
    end;
  os_path_isdir := os_path_isdir o;
  os_path_exists := fun p =>
    if list_eq_dec string_dec p keep then os_path_exists o p else false;
  os_read_lines := fun p =>
    if list_eq_dec string_dec p keep then os_read_lines o p
    else inl FileNotFoundError
|}.

(* ================================================================= *)
(** * Properties *)

(* ================================================================= *)
(** ** Runs in sequence *)

Lemma seq_emit (evs : list event) (r : run) :
  seq (emit evs) r = (evs ++ fst r, snd r).
Proof. reflexivity. Qed.

Lemma seq_nil_l (r : run) : seq (emit []) r = r.
Proof. destruct r; reflexivity. Qed.

Lemma seq_nil_r (r : run) : seq r (emit []) = r.
Proof.
  destruct r as [tr [ | e | ]]; unfold seq, emit; simpl; try reflexivity.
  now rewrite app_nil_r.
Qed.

Lemma seq_assoc (a b c : run) : seq (seq a b) c = seq a (seq b c).
Proof.
  destruct a as [ta [ | ea | ]], b as [tb [ | eb | ]]; unfold seq; simpl;
    try reflexivity.
  now rewrite app_assoc.
Qed.

Lemma outcome_eq_dec_done (x : outcome) : {x = Done} + {x <> Done}.
Proof. destruct x; [left; reflexivity | right; discriminate | right; discriminate]. Qed.

Lemma seq_stops (a b : run) : snd a <> Done -> seq a b = a.
Proof. destruct a as [ta [ | e | ]]; unfold seq; simpl; congruence. Qed.

Lemma seq_done (a b : run) :
  snd (seq a b) = Done <-> snd a = Done /\ snd b = Done.
Proof.
  destruct a as [ta [ | e | ]]; unfold seq; simpl; intuition congruence.
Qed.

Lemma seq_events (a b : run) :
  exists tl, fst (seq a b) = fst a ++ tl /\
             (snd a = Done -> tl = fst b) /\ (snd a <> Done -> tl = []).
Proof.
  destruct a as [ta [ | e | ]]; unfold seq; simpl.
  - exists (fst b); intuition congruence.
  - exists []; rewrite app_nil_r; intuition congruence.
  - exists []; rewrite app_nil_r; intuition congruence.
Qed.

Lemma in_seq_events (a b : run) (e : event) :
  In e (fst (seq a b)) -> In e (fst a) \/ In e (fst b).
Proof.
  destruct a as [ta [ | x | ]]; unfold seq; simpl; auto.
  intros H. apply in_app_or in H. exact H.
Qed.

Lemma snd_seq (a b : run) :
  snd (seq a b) = match snd a with Done => snd b | x => x end.
Proof. destruct a as [ta [ | e | ]]; reflexivity. Qed.

(* ================================================================= *)
(** ** Strings *)

Lemma string_app_assoc (a b c : string) :
  ((a ++ b) ++ c = a ++ (b ++ c))%string.
Proof. induction a as [ | x a IH]; simpl; [reflexivity | now rewrite IH]. Qed.

Lemma string_app_nil_r (a : string) : (a ++ "")%string = a.
Proof. induction a as [ | x a IH]; simpl; [reflexivity | now rewrite IH]. Qed.

Lemma string_length_app (a b : string) :
  String.length (a ++ b) = String.length a + String.length b.
Proof. induction a as [ | x a IH]; simpl; [reflexivity | now rewrite IH]. Qed.

Lemma string_app_longer (a b : string) : b <> "" -> (a ++ b)%string <> a.
Proof.
  intros Hb Heq. apply (f_equal String.length) in Heq.
  rewrite string_length_app in Heq. destruct b; [congruence | simpl in Heq; lia].
Qed.

Lemma indent_of_nonempty (b : bool) : indent_of b <> "".
Proof. destruct b; discriminate. Qed.

Lemma ends_with_slash_app (a b : string) :
  b <> "" -> ends_with_slash (a ++ b) = ends_with_slash b.
Proof.
  intros Hb. induction a as [ | c a IH]; [reflexivity | ].
  simpl. rewrite IH. destruct (a ++ b)%string eqn:E; [ | reflexivity].
  destruct a, b; simpl in E; congruence.
Qed.

Lemma ends_with_slash_has_slash (s : string) :
  has_slash s = false -> ends_with_slash s = false.
Proof.
  induction s as [ | c s IH]; [reflexivity | ].
  simpl. intros H. apply orb_false_iff in H. destruct H as [Hc Hs].
  destruct s; [exact Hc | now apply IH].
Qed.

Lemma concat_snoc (sep : string) (rel : list string) (item : string) :
  exists front : string, String.concat sep (rel ++ [item]) = (front ++ item)%string.
Proof.
  induction rel as [ | x rel (front & IH)].
  - now exists "".
  - exists (x ++ sep ++ front)%string. simpl app.
    change (String.concat sep (x :: rel ++ [item]))
      with (match rel ++ [item] with
            | [] => x
            | _ :: _ => (x ++ sep ++ String.concat sep (rel ++ [item]))%string
            end).
    destruct (rel ++ [item]) eqn:E; [destruct rel; discriminate | ].
    now rewrite IH, !string_app_assoc.
Qed.

(* ================================================================= *)
(** ** [sorted] arranges its argument in ascending order *)

Lemma compare_refl (s : string) : String.compare s s = Eq.
Proof.
  induction s as [ | c s IH]; simpl; [reflexivity | ].
  unfold Ascii.compare. now rewrite N.compare_refl.
Qed.

Lemma compare_lt_trans (a : string) :
  forall b c, String.compare a b = Lt -> String.compare b c = Lt ->
              String.compare a c = Lt.
Proof.
  induction a as [ | x a IH]; intros [ | y b] [ | z c]; simpl;
    try congruence.
  unfold Ascii.compare.
  destruct (N.compare_spec (N_of_ascii x) (N_of_ascii y)) as [Hxy | Hxy | Hxy];
    destruct (N.compare_spec (N_of_ascii y) (N_of_ascii z)) as [Hyz | Hyz | Hyz];
    try congruence; intros H1 H2.
  - rewrite Hxy, Hyz, N.compare_refl. eapply IH; eassumption.
  - rewrite Hxy. now apply N.compare_lt_iff in Hyz as ->.
  - rewrite <- Hyz. now apply N.compare_lt_iff in Hxy as ->.
  - assert (H : (N_of_ascii x < N_of_ascii z)%N) by (eapply N.lt_trans; eassumption).
    now apply N.compare_lt_iff in H as ->.
Qed.

Lemma le_name_refl (a : string) : le_name a a.
Proof. unfold le_name, String.leb. now rewrite compare_refl. Qed.

Lemma le_name_trans (a b c : string) : le_name a b -> le_name b c -> le_name a c.
Proof.
  unfold le_name, String.leb. intros Hab Hbc.
  destruct (String.compare a b) eqn:Eab; try discriminate;
    destruct (String.compare b c) eqn:Ebc; try discriminate.
  - apply String.compare_eq_iff in Eab, Ebc. subst. now rewrite compare_refl.
  - apply String.compare_eq_iff in Eab. subst. now rewrite Ebc.
  - apply String.compare_eq_iff in Ebc. subst. now rewrite Eab.
  - now rewrite (compare_lt_trans _ _ _ Eab Ebc).
Qed.

Lemma le_name_total (a b : string) : le_name a b \/ le_name b a.
Proof. apply String.leb_total. Qed.

Lemma insert_perm (x : string) (l : list string) : Permutation (x :: l) (insert x l).
Proof.
  induction l as [ | y l IH]; simpl; [apply Permutation_refl | ].
  destruct (String.leb x y); [apply Permutation_refl | ].
  eapply perm_trans; [apply perm_swap | now apply perm_skip].
Qed.

Lemma sorted_perm (l : list string) : Permutation l (sorted l).
Proof.
  induction l as [ | x l IH]; simpl; [apply perm_nil | ].
  eapply perm_trans; [apply perm_skip, IH | apply insert_perm].
Qed.

Lemma in_sorted (x : string) (l : list string) : In x (sorted l) <-> In x l.
Proof.
  split; apply Permutation_in;
    [apply Permutation_sym | ]; apply sorted_perm.
Qed.

Lemma insert_sorted (x : string) (l : list string) :
  StronglySorted le_name l -> StronglySorted le_name (insert x l).
Proof.
  induction 1 as [ | y l Hl IH Hy]; simpl.
  - constructor; constructor.
  - destruct (String.leb x y) eqn:Hxy.
    + constructor; [now constructor | ].
      constructor; [exact Hxy | ].
      eapply Forall_impl; [ | exact Hy].
      intros z Hz. eapply le_name_trans; eassumption.
    + constructor; [exact IH | ].
      assert (Hyx : le_name y x).
      { destruct (le_name_total x y) as [H | H]; [ | exact H].
        unfold le_name in H. congruence. }
      rewrite Forall_forall in *. intros z Hz.
      apply (Permutation_in _ (Permutation_sym (insert_perm x l))) in Hz.
      destruct Hz as [<- | Hz]; auto.
Qed.

Lemma sorted_sorted (l : list string) : StronglySorted le_name (sorted l).
Proof.
  induction l as [ | x l IH]; simpl; [constructor | now apply insert_sorted].
Qed.

Lemma insert_least (x : string) (l : list string) :
  Forall (le_name x) l -> insert x l = x :: l.
Proof.
  destruct 1 as [ | y l Hy _]; [reflexivity | ].
  simpl. unfold le_name in Hy. now rewrite Hy.
Qed.

Lemma filter_insert (f : string -> bool) (x : string) (l : list string) :
  StronglySorted le_name l ->
  filter f (insert x l) = if f x then insert x (filter f l) else filter f l.
Proof.
  induction 1 as [ | y l Hl IH Hy]; simpl.
  - destruct (f x); reflexivity.
  - destruct (String.leb x y) eqn:Hxy.
    + simpl. destruct (f x); [ | reflexivity].
      symmetry. apply insert_least.
      assert (Hall : Forall (le_name x) (y :: l)).
      { constructor; [exact Hxy | ].
        eapply Forall_impl; [ | exact Hy].
        intros z Hz. eapply le_name_trans; eassumption. }
      rewrite Forall_forall in *. intros z Hz.
      change (In z (filter f (y :: l))) in Hz.
      apply filter_In in Hz. now apply Hall.
    + simpl. rewrite IH. destruct (f y), (f x); simpl; try reflexivity.
      now rewrite Hxy.
Qed.

Lemma sorted_filter (f : string -> bool) (l : list string) :
  sorted (filter f l) = filter f (sorted l).
Proof.
  induction l as [ | x l IH]; [reflexivity | ].
  simpl. rewrite filter_insert by apply sorted_sorted.
  destruct (f x); simpl; now rewrite IH.
Qed.

Lemma filter_filter_weaker {A : Type} (f g : A -> bool) (l : list A) :
  (forall x, In x l -> g x = true -> f x = true) ->
  filter g (filter f l) = filter g l.
Proof.
  induction l as [ | x l IH]; intros H; [reflexivity | ].
  simpl. destruct (f x) eqn:Hf; simpl.
  - destruct (g x); rewrite IH; auto; intros; apply H; simpl; auto.
  - destruct (g x) eqn:Hg.
    + rewrite H in Hf; [discriminate | now left | exact Hg].
    + apply IH. intros; apply H; simpl; auto.
Qed.

(* ================================================================= *)
(** ** Paths below the root *)

Lemma commonprefix_app (root rel : path) : commonprefix root (root ++ rel) = root.
Proof.
  induction root as [ | x root IH]; simpl; [reflexivity | ].
  now rewrite String.eqb_refl, IH.
Qed.

Lemma relpath_below (root rel : path) :
  rel <> [] -> relpath (root ++ rel) root = String.concat "/" rel.
Proof.
  intros Hrel. unfold relpath. rewrite commonprefix_app, Nat.sub_diag.
  simpl repeat. simpl app.
  replace (skipn (List.length root) (root ++ rel)) with rel.
  - destruct rel; [congruence | reflexivity].
  - rewrite skipn_app, Nat.sub_diag, skipn_all. reflexivity.
Qed.

Lemma matcher_path_below (o : OS) (root rel : path) (item : string) :
  matcher_path o (root ++ rel) root item =
  String.append (String.concat "/" (rel ++ [item]))
                (slash_if (os_path_isdir o (root ++ rel ++ [item]))).
Proof.
  unfold matcher_path, join, as_posix. rewrite <- app_assoc.
  rewrite relpath_below by (destruct rel; discriminate).
  destruct (os_path_isdir o (root ++ rel ++ [item])); simpl;
    [reflexivity | now rewrite string_app_nil_r].
Qed.

Lemma ends_with_slash_matcher_path (o : OS) (root rel : path) (item : string) :
  valid_name item = true ->
  ends_with_slash (matcher_path o (root ++ rel) root item) =
  os_path_isdir o (root ++ rel ++ [item]).
Proof.
  unfold valid_name. intros Hv. apply andb_true_iff in Hv.
  destruct Hv as [Hne Hns]. apply negb_true_iff in Hne, Hns.
  apply String.eqb_neq in Hne.
  rewrite matcher_path_below.
  destruct (os_path_isdir o (root ++ rel ++ [item])); simpl slash_if.
  - now rewrite ends_with_slash_app by discriminate.
  - rewrite string_app_nil_r.
    destruct (concat_snoc "/" rel item) as (front & ->).
    rewrite ends_with_slash_app by exact Hne.
    now apply ends_with_slash_has_slash.
Qed.

(* ================================================================= *)
(** ** Directory trees *)

Lemma lookup_map {A B : Type} (f : string -> A -> B) (name : string)
    (es : list (string * A)) :
  lookup name (map (fun e => let '(n, c) := e in (n, f n c)) es) =
  option_map (f name) (lookup name es).
Proof.
  induction es as [ | [n c] es IH]; [reflexivity | ].
  simpl. destruct (String.eqb_spec n name) as [-> | Hne]; [reflexivity | exact IH].
Qed.

Lemma lookup_in {A : Type} (name : string) (es : list (string * A)) :
  In name (map fst es) -> exists c, lookup name es = Some c /\ In (name, c) es.
Proof.
  induction es as [ | [n c] es IH]; [intros [] | ].
  simpl. destruct (String.eqb_spec n name) as [-> | Hne].
  - intros _. exists c. auto.
  - intros [H | H]; [congruence | ].
    destruct (IH H) as (c' & Hl & Hin). exists c'. auto.
Qed.

Lemma lookup_some_in {A : Type} (name : string) (es : list (string * A)) (c : A) :
  lookup name es = Some c -> In (name, c) es.
Proof.
  induction es as [ | [n c'] es IH]; [discriminate | ].
  simpl. destruct (String.eqb_spec n name) as [-> | Hne].
  - intros [= ->]. now left.
  - intros H. right. now apply IH.
Qed.

Lemma lookup_nodup {A : Type} (es : list (string * A)) (n : string) (c : A) :
  NoDup (map fst es) -> In (n, c) es -> lookup n es = Some c.
Proof.
  induction es as [ | [n' c'] es IH]; intros Hnd Hin; [destruct Hin | ].
  simpl in *. inversion Hnd as [ | ? ? Hnotin Hnd']; subst.
  destruct Hin as [[= -> ->] | Hin].
  - now rewrite String.eqb_refl.
  - destruct (String.eqb_spec n' n) as [-> | Hne]; [ | now apply IH].
    exfalso. apply Hnotin. apply in_map_iff. now exists (n, c).
Qed.

Lemma height_child (a : access) (es : list (string * node)) (n : string)
    (c : node) :
  In (n, c) es -> height c < height (Dir a es).
Proof.
  intros Hin. simpl. apply Nat.lt_succ_r.
  induction es as [ | [n' c'] es IH]; [destruct Hin | ].
  simpl. destruct Hin as [[= -> ->] | Hin].
  - apply Nat.le_max_l.
  - etransitivity; [now apply IH | apply Nat.le_max_r].
Qed.

Lemma faultless_child (a : access) (es : list (string * node)) (n : string)
    (c : node) :
  faultless (Dir a es) = true -> In (n, c) es -> faultless c = true.
Proof.
  simpl. intros H Hin. apply andb_true_iff in H. destruct H as [_ H].
  rewrite forallb_forall in H. exact (H _ Hin).
Qed.

Lemma nodupb_NoDup (l : list string) : nodupb l = true -> NoDup l.
Proof.
  induction l as [ | x l IH]; simpl; intros H; [constructor | ].
  apply andb_true_iff in H. destruct H as [Hx Hl].
  constructor; [ | now apply IH].
  intros Hin. apply negb_true_iff in Hx.
  assert (Hex : existsb (String.eqb x) l = true).
  { apply existsb_exists. exists x. split; [exact Hin | apply String.eqb_refl]. }
  congruence.
Qed.

Lemma distinct_names_dir (a : access) (es : list (string * node)) :
  distinct_names (Dir a es) = true -> NoDup (map fst es).
Proof.
  simpl. intros H. apply andb_true_iff in H. now apply nodupb_NoDup.
Qed.

Lemma distinct_names_child (a : access) (es : list (string * node))
    (n : string) (c : node) :
  distinct_names (Dir a es) = true -> In (n, c) es -> distinct_names c = true.
Proof.
  simpl. intros H Hin. apply andb_true_iff in H. destruct H as [_ H].
  rewrite forallb_forall in H. exact (H _ Hin).
Qed.

Lemma resolve_app (t : node) (p q : path) :
  resolve t (p ++ q) =
  match resolve t p with
  | Some t' => resolve t' q
  | None => None
  end.
Proof.
  revert t. induction p as [ | name p IH]; intros t; [reflexivity | ].
  simpl. destruct t as [ | a es]; [reflexivity | ].
  destruct (lookup name es); [apply IH | reflexivity].
Qed.

Lemma resolve_child (fs : node) (dir_path : path) (a : access)
    (es : list (string * node)) (item : string) :
  resolve fs dir_path = Some (Dir a es) ->
  resolve fs (join dir_path item) = lookup item es.
Proof.
  intros H. unfold join. rewrite resolve_app, H. simpl.
  destruct (lookup item es); reflexivity.
Qed.

Lemma listdir_of_dir (fs : node) (dir_path : path) (es : list (string * node)) :
  resolve fs dir_path = Some (Dir Listable es) ->
  os_listdir (os_of fs) dir_path = inr (map fst es).
Proof. intros H. simpl. now rewrite H. Qed.

Lemma valid_tree_resolve (p : path) :
  forall t t', valid_tree t = true -> resolve t p = Some t' -> valid_tree t' = true.
Proof.
  induction p as [ | name p IH]; intros t t' Hv Hr.
  - now injection Hr as <-.
  - simpl in Hr. destruct t as [ls | a es]; [discriminate | ].
    destruct (lookup name es) as [c | ] eqn:Hl; [ | discriminate].
    apply (IH c t'); [ | exact Hr].
    simpl in Hv. rewrite forallb_forall in Hv.
    specialize (Hv _ (lookup_some_in _ _ _ Hl)). simpl in Hv.
    now apply andb_true_iff in Hv.
Qed.

Lemma valid_tree_listings (fs : node) :
  valid_tree fs = true -> valid_listings (os_of fs).
Proof.
  intros Hv p names. simpl.
  destruct (resolve fs p) as [[ls | [ | | ] es] | ] eqn:Hr; try discriminate.
  intros [= <-]. apply valid_tree_resolve in Hr; [ | exact Hv].
  simpl in Hr. rewrite forallb_forall in *. intros n Hn.
  apply in_map_iff in Hn. destruct Hn as ([n' c] & <- & Hin).
  specialize (Hr _ Hin). simpl in Hr. now apply andb_true_iff in Hr.
Qed.

(* ================================================================= *)
(** ** The two loops of [print_tree] *)

Section Loop.

Variable o : OS.
Variable rec : path -> string -> run.
Variables (dir_path : path) (prefix : string).

Lemma print_items_cons (total_items index : nat) (item : string)
    (rest : list string) :
  print_items o rec dir_path prefix total_items index (item :: rest) =
  seq (item_run o rec dir_path prefix (Nat.eqb index (total_items - 1)) item)
      (print_items o rec dir_path prefix total_items (S index) rest).
Proof.
  simpl. unfold item_run, child_line, connector_of, indent_of.
  destruct (os_path_isdir o (join dir_path item)); reflexivity.
Qed.

Lemma print_items_app (total_items : nat) (l1 l2 : list string) :
  forall index,
  print_items o rec dir_path prefix total_items index (l1 ++ l2) =
  seq (print_items o rec dir_path prefix total_items index l1)
      (print_items o rec dir_path prefix total_items (index + List.length l1) l2).
Proof.
  induction l1 as [ | x l1 IH]; intros index.
  - rewrite Nat.add_0_r. simpl app. simpl print_items at 2.
    now rewrite seq_nil_l.
  - simpl app. rewrite !print_items_cons, IH, seq_assoc.
    simpl List.length. now rewrite Nat.add_succ_r.
Qed.

(** The test [index == total_items - 1] picks the item nothing follows. *)
Lemma print_items_split (l1 l2 : list string) (item : string) :
  print_items o rec dir_path prefix (List.length (l1 ++ item :: l2)) 0
              (l1 ++ item :: l2) =
  seq (print_items o rec dir_path prefix (List.length (l1 ++ item :: l2)) 0 l1)
      (seq (item_run o rec dir_path prefix (is_nil l2) item)
           (print_items o rec dir_path prefix (List.length (l1 ++ item :: l2))
                        (S (List.length l1)) l2)).
Proof.
  rewrite print_items_app, print_items_cons. simpl Nat.add.
  replace (Nat.eqb (List.length l1) (List.length (l1 ++ item :: l2) - 1))
    with (is_nil l2); [reflexivity | ].
  rewrite length_app. simpl List.length.
  destruct l2 as [ | y l2]; simpl.
  - symmetry. apply Nat.eqb_eq. lia.
  - symmetry. apply Nat.eqb_neq. lia.
Qed.

End Loop.

Lemma print_tree_listed (o : OS) (fuel : nat) (dir_path : path)
    (prefix : string) (root_path : path) (pathspec : PathSpec)
    (names : list string) :
  os_listdir o dir_path = inr names ->
  print_tree o (S fuel) dir_path prefix root_path pathspec =
  seq (emit (Enter dir_path prefix
             :: filter_events o dir_path root_path (sorted names)))
      (print_items o (fun p pre => print_tree o fuel p pre root_path pathspec)
         dir_path prefix
         (List.length (filter_items o dir_path root_path pathspec (sorted names)))
         0 (filter_items o dir_path root_path pathspec (sorted names))).
Proof. intros H. cbn [print_tree]. now rewrite H. Qed.

Lemma in_item_run (o : OS) (rec : path -> string -> run) (dir_path : path)
    (prefix : string) (b : bool) (item : string) (e : event) :
  In e (fst (item_run o rec dir_path prefix b item)) ->
  e = Print (child_line o dir_path prefix b item) \/
  (os_path_isdir o (join dir_path item) = true /\
   In e (fst (rec (join dir_path item) (prefix ++ indent_of b)%string))).
Proof.
  unfold item_run. destruct (os_path_isdir o (join dir_path item)).
  - rewrite seq_emit. simpl. intros [<- | H]; auto.
  - simpl. intros [<- | []]. now left.
Qed.

Lemma in_print_items (o : OS) (rec : path -> string -> run) (dir_path : path)
    (prefix : string) (total_items : nat) (items : list string) (e : event) :
  forall index,
  In e (fst (print_items o rec dir_path prefix total_items index items)) ->
  exists item b,
    In item items /\
    (e = Print (child_line o dir_path prefix b item) \/
     (os_path_isdir o (join dir_path item) = true /\
      In e (fst (rec (join dir_path item) (prefix ++ indent_of b)%string)))).
Proof.
  induction items as [ | item rest IH]; intros index; [intros [] | ].
  rewrite print_items_cons. intros H. apply in_seq_events in H.
  destruct H as [H | H].
  - apply in_item_run in H. exists item. eexists. split; [now left | exact H].
  - destruct (IH _ H) as (item' & b & Hin & Hcases).
    exists item', b. split; [now right | exact Hcases].
Qed.

Lemma in_filter_items (o : OS) (dir_path root_path : path) (pathspec : PathSpec)
    (items : list string) (item : string) :
  In item (filter_items o dir_path root_path pathspec items) <->
  In item items /\
  should_ignore (matcher_path o dir_path root_path item) pathspec = false.
Proof.
  unfold filter_items. rewrite filter_In, negb_true_iff. reflexivity.
Qed.

(** Every event of a call on a listed directory. *)
Lemma in_print_tree (o : OS) (fuel : nat) (dir_path : path) (prefix : string)
    (root_path : path) (pathspec : PathSpec) (e : event) :
  In e (fst (print_tree o (S fuel) dir_path prefix root_path pathspec)) ->
  e = Enter dir_path prefix \/
  e = Print (DeniedLine prefix) \/
  exists names,
    os_listdir o dir_path = inr names /\
    ((exists item, In item names /\
                   e = Match (matcher_path o dir_path root_path item)) \/
     (exists item b,
        In item names /\
        should_ignore (matcher_path o dir_path root_path item) pathspec = false /\
        (e = Print (child_line o dir_path prefix b item) \/
         (os_path_isdir o (join dir_path item) = true /\
          In e (fst (print_tree o fuel (join dir_path item)
                       (prefix ++ indent_of b) root_path pathspec)))))).
Proof.
  cbn [print_tree].
  destruct (os_listdir o dir_path) as [[ | | | | | | | ] | names].
  1-8: simpl; intuition (subst; auto).
  rewrite seq_emit. cbn [fst]. intros [<- | H]; [now left | ].
  right; right. exists names. split; [reflexivity | ].
  apply in_app_or in H. destruct H as [H | H].
  - left. unfold filter_events in H. apply in_map_iff in H.
    destruct H as (item & <- & Hin). exists item.
    split; [now apply in_sorted | reflexivity].
  - right. apply in_print_items in H. destruct H as (item & b & Hin & Hc).
    apply in_filter_items in Hin. destruct Hin as [Hin Hkeep].
    exists item, b. split; [now apply in_sorted | split; assumption].
Qed.

Lemma filter_items_none (o : OS) (dir_path root_path : path)
    (pathspec : PathSpec) (items : list string) :
  (forall s, match_file pathspec s = false) ->
  filter_items o dir_path root_path pathspec items = items.
Proof.
  intros Hnone. unfold filter_items, should_ignore.
  induction items as [ | x l IH]; [reflexivity | ].
  simpl. now rewrite Hnone, IH.
Qed.

(* ================================================================= *)
(** ** Room under the recursion limit *)

Lemma at_limit_returns (r : run) : snd r = Done -> at_limit r = r.
Proof. unfold at_limit. now intros ->. Qed.

Lemma at_limit_raises (r : run) (e : exn) :
  snd (at_limit r) = Raised e ->
  snd r = Raised e \/ (snd r = OutOfFuel /\ e = RecursionError).
Proof.
  unfold at_limit. destruct (snd r) eqn:Hs; simpl; rewrite ?Hs;
    [discriminate | now left | ].
  intros [= <-]. now right.
Qed.

Lemma print_items_fuel (o : OS) (rec : path -> string -> run) (dir_path : path)
    (prefix : string) (total_items : nat) (items : list string) :
  (forall item pre, In item items ->
     os_path_isdir o (join dir_path item) = true ->
     snd (rec (join dir_path item) pre) <> OutOfFuel) ->
  forall index,
  snd (print_items o rec dir_path prefix total_items index items) <> OutOfFuel.
Proof.
  induction items as [ | item rest IH]; intros Hrec index; [discriminate | ].
  rewrite print_items_cons, snd_seq.
  assert (Hitem : snd (item_run o rec dir_path prefix
                         (Nat.eqb index (total_items - 1)) item) <> OutOfFuel).
  { unfold item_run. destruct (os_path_isdir o (join dir_path item)) eqn:Hd;
      [ | discriminate].
    rewrite seq_emit. apply Hrec; [now left | exact Hd]. }
  destruct (snd (item_run o rec dir_path prefix _ item)); try congruence.
  apply IH. intros it pre Hin. apply Hrec. now right.
Qed.

Lemma fuel_suffices_at (fs : node) (root_path : path) (pathspec : PathSpec)
    (fuel : nat) :
  forall (dir_path : path) (prefix : string) (t : node),
  resolve fs dir_path = Some t ->
  height t < fuel ->
  snd (print_tree (os_of fs) fuel dir_path prefix root_path pathspec) <> OutOfFuel.
Proof.
  induction fuel as [ | fuel IH]; intros dir_path prefix t Ht Hh; [lia | ].
  destruct t as [ls | [ | | ] es].
  1, 3, 4: cbn [print_tree]; simpl os_listdir; rewrite Ht; discriminate.
  rewrite (print_tree_listed _ _ _ _ _ _ _ (listdir_of_dir _ _ _ Ht)).
  rewrite snd_seq. cbn [emit snd]. apply print_items_fuel.
  intros item pre Hin _.
  apply in_filter_items in Hin. destruct Hin as [Hin _].
  apply in_sorted, lookup_in in Hin. destruct Hin as (c & Hl & Hin).
  apply (IH _ _ c).
  - now rewrite (resolve_child _ _ _ _ _ Ht).
  - apply (height_child Listable) in Hin. lia.
Qed.

(** On a finite directory tree the recursion is bounded: when the limit
    leaves room for [depth_bound] nested calls, [print_tree] ends by
    returning or by an exception of a listing. *)
Lemma fuel_suffices (fs : node) (root_path : path) (pathspec : PathSpec)
    (fuel : nat) (dir_path : path) (prefix : string) :
  depth_bound fs dir_path <= fuel ->
  snd (print_tree (os_of fs) fuel dir_path prefix root_path pathspec) <> OutOfFuel.
Proof.
  unfold depth_bound. destruct (resolve fs dir_path) as [t | ] eqn:Ht; intros H.
  - eapply fuel_suffices_at; [exact Ht | lia].
  - destruct fuel as [ | fuel]; [lia | ].
    cbn [print_tree]. simpl os_listdir. rewrite Ht. discriminate.
Qed.

Lemma print_items_more_fuel (o : OS) (rec' rec : path -> string -> run)
    (dir_path : path) (prefix : string) (total_items : nat)
    (items : list string) :
  (forall p pre, snd (rec p pre) <> OutOfFuel -> rec' p pre = rec p pre) ->
  forall index,
  snd (print_items o rec dir_path prefix total_items index items) <> OutOfFuel ->
  print_items o rec' dir_path prefix total_items index items =
  print_items o rec dir_path prefix total_items index items.
Proof.
  intros Hrec. induction items as [ | item rest IH]; intros index;
    [reflexivity | ].
  rewrite !print_items_cons, snd_seq. intros H.
  assert (Hitem :
    snd (item_run o rec dir_path prefix (Nat.eqb index (total_items - 1)) item)
      <> OutOfFuel ->
    item_run o rec' dir_path prefix (Nat.eqb index (total_items - 1)) item =
    item_run o rec dir_path prefix (Nat.eqb index (total_items - 1)) item).
  { unfold item_run. destruct (os_path_isdir o (join dir_path item));
      [ | reflexivity].
    rewrite !seq_emit. cbn [snd]. intros Hs. now rewrite Hrec. }
  destruct (snd (item_run o rec dir_path prefix _ item)) eqn:Hs.
  - rewrite Hitem by discriminate. now rewrite IH.
  - rewrite Hitem by discriminate. rewrite !seq_stops; congruence.
  - congruence.
Qed.

(** Fuel beyond what a run needs does not change it. *)
Lemma more_fuel (o : OS) (root_path : path) (pathspec : PathSpec) (fuel : nat) :
  forall (dir_path : path) (prefix : string),
  snd (print_tree o fuel dir_path prefix root_path pathspec) <> OutOfFuel ->
  print_tree o (S fuel) dir_path prefix root_path pathspec =
  print_tree o fuel dir_path prefix root_path pathspec.
Proof.
  induction fuel as [ | fuel IH]; intros dir_path prefix H;
    [simpl in H; congruence | ].
  remember (S fuel) as n eqn:Hn. cbn [print_tree]. subst n.
  cbn [print_tree] in H |- *.
  destruct (os_listdir o dir_path) as [[ | | | | | | | ] | names]; try reflexivity.
  rewrite snd_seq in H. cbn [emit snd] in H. f_equal.
  apply print_items_more_fuel; [ | exact H].
  intros p pre Hp. now apply IH.
Qed.

(* ================================================================= *)
(** ** Connectors and indentation *)

Lemma printed_app (a b : list event) : printed (a ++ b) = printed a ++ printed b.
Proof. apply flat_map_app. Qed.

Lemma child_lines_app (prefix : string) (a b : list event) :
  child_lines prefix (a ++ b) = child_lines prefix a ++ child_lines prefix b.
Proof. unfold child_lines. now rewrite printed_app, filter_app. Qed.

Lemma child_lines_matches (o : OS) (prefix : string)
    (dir_path root_path : path) (items : list string) :
  child_lines prefix (filter_events o dir_path root_path items) = [].
Proof. induction items as [ | x l IH]; [reflexivity | exact IH]. Qed.

Lemma child_lines_seq (prefix : string) (a b : run) :
  exists tl, child_lines prefix (fst (seq a b)) = child_lines prefix (fst a) ++ tl /\
             (snd a = Done -> tl = child_lines prefix (fst b)) /\
             (snd a <> Done -> tl = []).
Proof.
  destruct (seq_events a b) as (tl & Heq & Hdone & Hstop).
  exists (child_lines prefix tl). rewrite Heq, child_lines_app.
  split; [reflexivity | split; intros H].
  - now rewrite (Hdone H).
  - now rewrite (Hstop H).
Qed.

Lemma is_child_line_own (o : OS) (dir_path : path) (prefix : string)
    (b : bool) (item : string) :
  is_child_line prefix (child_line o dir_path prefix b item) = true.
Proof.
  unfold child_line. destruct (os_path_isdir o (join dir_path item)); simpl;
    apply String.eqb_refl.
Qed.

Lemma is_child_line_deeper (o : OS) (dir_path : path) (prefix suffix : string)
    (b : bool) (item : string) :
  suffix <> "" ->
  is_child_line prefix (child_line o dir_path (prefix ++ suffix) b item) = false.
Proof.
  intros Hs. unfold child_line.
  destruct (os_path_isdir o (join dir_path item)); simpl;
    apply String.eqb_neq; now apply string_app_longer.
Qed.

Section ChildLines.

Variable o : OS.
Variables (root_path : path) (pathspec : PathSpec).

(** No line of a level strictly below [prefix] counts as a child line. *)
Lemma deeper_lines (fuel : nat) :
  forall (dir_path : path) (prefix suffix : string),
  suffix <> "" ->
  child_lines prefix
    (fst (print_tree o fuel dir_path (prefix ++ suffix) root_path pathspec)) = [].
Proof.
  induction fuel as [ | fuel IH]; intros dir_path prefix suffix Hs;
    [reflexivity | ].
  simpl. destruct (os_listdir o dir_path) as [[ | | | | | | | ] | names];
    try reflexivity.
  rewrite seq_emit. cbn [fst]. change (Enter ?d ?p :: ?l) with ([Enter d p] ++ l).
  rewrite !child_lines_app, child_lines_matches. simpl.
  generalize (List.length (filter_items o dir_path root_path pathspec (sorted names))).
  intros total. generalize 0 as index.
  induction (filter_items o dir_path root_path pathspec (sorted names))
    as [ | item rest IHrest]; intros index; [reflexivity | ].
  rewrite print_items_cons.
  destruct (child_lines_seq prefix
              (item_run o (fun p pre => print_tree o fuel p pre root_path pathspec)
                        dir_path (prefix ++ suffix) (Nat.eqb index (total - 1)) item)
              (print_items o (fun p pre => print_tree o fuel p pre root_path pathspec)
                           dir_path (prefix ++ suffix) total (S index) rest))
    as (tl & -> & Hdone & Hstop).
  assert (Hitem : child_lines prefix
            (fst (item_run o (fun p pre => print_tree o fuel p pre root_path pathspec)
                           dir_path (prefix ++ suffix)
                           (Nat.eqb index (total - 1)) item)) = []).
  { unfold item_run. destruct (os_path_isdir o (join dir_path item)) eqn:Hd.
    - rewrite seq_emit. cbn [fst]. rewrite child_lines_app.
      rewrite string_app_assoc, IH.
      + unfold child_lines. simpl. now rewrite is_child_line_deeper.
      + destruct suffix; [congruence | discriminate].
    - unfold emit, child_lines. simpl. now rewrite is_child_line_deeper. }
  rewrite Hitem. simpl.
  destruct (outcome_eq_dec_done
              (snd (item_run o (fun p pre => print_tree o fuel p pre root_path pathspec)
                             dir_path (prefix ++ suffix)
                             (Nat.eqb index (total - 1)) item))) as [Hd | Hd].
  - rewrite (Hdone Hd). apply IHrest.
  - now rewrite (Hstop Hd).
Qed.

End ChildLines.

Section ChildLinesOfItems.

Variable o : OS.
Variable rec : path -> string -> run.
Variables (dir_path : path) (prefix : string).

Hypothesis rec_deeper :
  forall (p : path) (suffix : string),
  suffix <> "" -> child_lines prefix (fst (rec p (prefix ++ suffix)%string)) = [].

Lemma child_lines_item_run (b : bool) (item : string) :
  child_lines prefix (fst (item_run o rec dir_path prefix b item)) =
  [child_line o dir_path prefix b item].
Proof.
  unfold item_run. destruct (os_path_isdir o (join dir_path item)) eqn:Hd.
  - rewrite seq_emit. cbn [fst]. rewrite child_lines_app, rec_deeper.
    + unfold child_lines. simpl. now rewrite is_child_line_own.
    + apply indent_of_nonempty.
  - unfold emit, child_lines. simpl. now rewrite is_child_line_own.
Qed.

Lemma child_lines_print_items (total_items : nat) (items : list string) :
  forall index,
  index + List.length items = total_items ->
  exists k,
    child_lines prefix
      (fst (print_items o rec dir_path prefix total_items index items)) =
    firstn k (expected_lines o dir_path prefix items) /\
    (snd (print_items o rec dir_path prefix total_items index items) = Done ->
     k = List.length items).
Proof.
  induction items as [ | item rest IH]; intros index Hlen.
  - exists 0. split; reflexivity.
  - rewrite print_items_cons.
    replace (Nat.eqb index (total_items - 1)) with (is_nil rest).
    2:{ simpl in Hlen. destruct rest; simpl in *; symmetry;
        [apply Nat.eqb_eq | apply Nat.eqb_neq]; lia. }
    destruct (child_lines_seq prefix
                (item_run o rec dir_path prefix (is_nil rest) item)
                (print_items o rec dir_path prefix total_items (S index) rest))
      as (tl & -> & Hdone & Hstop).
    rewrite child_lines_item_run.
    destruct (outcome_eq_dec_done
                (snd (item_run o rec dir_path prefix (is_nil rest) item)))
      as [Hd | Hd].
    + destruct (IH (S index)) as (k & Hk & Hall);
        [simpl in Hlen; lia | ].
      exists (S k). rewrite (Hdone Hd), Hk. split; [reflexivity | ].
      intros H. apply seq_done in H. simpl. f_equal. apply Hall, H.
    + exists 1. rewrite (Hstop Hd). split.
      * reflexivity.
      * intros H. apply seq_done in H. tauto.
Qed.

End ChildLinesOfItems.

Lemma expected_lines_length (o : OS) (dir_path : path) (prefix : string)
    (items : list string) :
  List.length (expected_lines o dir_path prefix items) = List.length items.
Proof. induction items as [ | x l IH]; simpl; [reflexivity | now rewrite IH]. Qed.

Lemma expected_lines_nth (o : OS) (dir_path : path) (prefix : string)
    (l1 l2 : list string) (item : string) :
  nth_error (expected_lines o dir_path prefix (l1 ++ item :: l2)) (List.length l1) =
  Some (child_line o dir_path prefix (is_nil l2) item).
Proof. induction l1 as [ | x l1 IH]; simpl; [reflexivity | exact IH]. Qed.

Lemma expected_lines_firstn_all (o : OS) (dir_path : path) (prefix : string)
    (items : list string) :
  firstn (List.length items) (expected_lines o dir_path prefix items) =
  expected_lines o dir_path prefix items.
Proof. apply firstn_all2. now rewrite expected_lines_length. Qed.

Lemma nth_error_firstn_some {A : Type} (k i : nat) (l : list A) (x : A) :
  nth_error (firstn k l) i = Some x -> nth_error l i = Some x.
Proof.
  revert k l. induction i as [ | i IH]; intros [ | k] [ | y l]; simpl;
    try discriminate; auto.
  apply IH.
Qed.

(** The child lines of a call of [print_tree] on a listed directory. *)
Lemma child_lines_print_tree (o : OS) (fuel : nat) (dir_path : path)
    (prefix : string) (root_path : path) (pathspec : PathSpec)
    (names : list string) :
  os_listdir o dir_path = inr names ->
  exists k,
    child_lines prefix
      (fst (print_tree o (S fuel) dir_path prefix root_path pathspec)) =
    firstn k (expected_lines o dir_path prefix
                (filter_items o dir_path root_path pathspec (sorted names))) /\
    (snd (print_tree o (S fuel) dir_path prefix root_path pathspec) = Done ->
     k = List.length (filter_items o dir_path root_path pathspec (sorted names))).
Proof.
  intros Hls. simpl. rewrite Hls, seq_emit. cbn [fst snd].
  change (Enter ?d ?p :: ?l) with ([Enter d p] ++ l).
  rewrite !child_lines_app, child_lines_matches. simpl.
  apply child_lines_print_items; [ | reflexivity].
  intros p suffix Hs. now apply deeper_lines.
Qed.

(** The children before the last one that survives are dealt with and
    left behind as soon as the calls on the directories among them return. *)
Lemma print_items_before_last (o : OS) (rec : path -> string -> run)
    (dir_path : path) (prefix : string) (total_items : nat)
    (items : list string) :
  (forall it, In it items ->
     os_path_isdir o (join dir_path it) = true ->
     snd (rec (join dir_path it) (prefix ++ indent_of false)%string) = Done) ->
  forall index,
  index + List.length items < total_items ->
  snd (print_items o rec dir_path prefix total_items index items) = Done.
Proof.
  intros Hrec. induction items as [ | item rest IH]; intros index Hlt;
    [reflexivity | ].
  simpl in Hlt. rewrite print_items_cons, snd_seq.
  replace (Nat.eqb index (total_items - 1)) with false
    by (symmetry; apply Nat.eqb_neq; lia).
  assert (Hitem : snd (item_run o rec dir_path prefix false item) = Done).
  { unfold item_run. destruct (os_path_isdir o (join dir_path item)) eqn:Hd;
      [ | reflexivity].
    rewrite snd_seq. cbn [emit snd]. apply Hrec; [now left | exact Hd]. }
  rewrite Hitem. apply IH; [ | lia].
  intros it Hin. apply Hrec. now right.
Qed.

Lemma child_lines_print_items_length (o : OS) (rec : path -> string -> run)
    (dir_path : path) (prefix : string) (total_items : nat)
    (items : list string) :
  (forall (p : path) (suffix : string),
     suffix <> "" -> child_lines prefix (fst (rec p (prefix ++ suffix)%string)) = []) ->
  forall index,
  snd (print_items o rec dir_path prefix total_items index items) = Done ->
  List.length
    (child_lines prefix
       (fst (print_items o rec dir_path prefix total_items index items)))
  = List.length items.
Proof.
  intros Hdeep. induction items as [ | item rest IH]; intros index Hdone;
    [reflexivity | ].
  rewrite print_items_cons in Hdone |- *.
  apply seq_done in Hdone. destruct Hdone as [Hitem Hrest].
  destruct (child_lines_seq prefix
              (item_run o rec dir_path prefix
                 (Nat.eqb index (total_items - 1)) item)
              (print_items o rec dir_path prefix total_items (S index) rest))
    as (tl & -> & Htl & _).
  rewrite (Htl Hitem), (child_lines_item_run o rec dir_path prefix Hdeep).
  simpl. f_equal. now apply IH.
Qed.

(** C6.  Whatever the nesting depth (any directory, any prefix): once the
    calls on the surviving directories before a surviving child have
    returned, the line of that child is printed, at its place among the
    lines of the children, and it carries the connector "└── " when no
    surviving child follows it and "├── " otherwise.  A run that returns
    has printed exactly one such line for every surviving child. *)
Theorem connector_of_each_child (o : OS) (fuel : nat) (dir_path : path)
    (prefix : string) (root_path : path) (pathspec : PathSpec)
    (names l1 l2 : list string) (item : string) :
  os_listdir o dir_path = inr names ->
  filter_items o dir_path root_path pathspec (sorted names) = l1 ++ item :: l2 ->
  (forall it, In it l1 ->
     os_path_isdir o (join dir_path it) = true ->
     snd (print_tree o fuel (join dir_path it) (prefix ++ "│   ") root_path pathspec)
     = Done) ->
  let r := print_tree o (S fuel) dir_path prefix root_path pathspec in
  nth_error (child_lines prefix (fst r)) (List.length l1)
  = Some (child_line o dir_path prefix (is_nil l2) item) /\
  In (Print (child_line o dir_path prefix (is_nil l2) item)) (fst r) /\
  line_connector (child_line o dir_path prefix (is_nil l2) item)
  = (if is_nil l2 then "└── " else "├── ") /\
  (snd r = Done ->
   child_lines prefix (fst r) = expected_lines o dir_path prefix (l1 ++ item :: l2)).
Proof.
  intros Hls Hsplit Hbefore r.
  set (rec := fun p pre => print_tree o fuel p pre root_path pathspec).
  assert (Hdeep : forall (p : path) (suffix : string),
            suffix <> "" ->
            child_lines prefix (fst (rec p (prefix ++ suffix)%string)) = []).
  { intros p suffix Hs. now apply deeper_lines. }
  assert (Hl1 : snd (print_items o rec dir_path prefix
                       (List.length (l1 ++ item :: l2)) 0 l1) = Done).
  { apply print_items_before_last; [exact Hbefore | ].
    rewrite length_app. simpl. lia. }
  assert (Hr : r = seq (emit (Enter dir_path prefix
                              :: filter_events o dir_path root_path (sorted names)))
                 (seq (print_items o rec dir_path prefix
                         (List.length (l1 ++ item :: l2)) 0 l1)
                    (seq (item_run o rec dir_path prefix (is_nil l2) item)
                       (print_items o rec dir_path prefix
                          (List.length (l1 ++ item :: l2))
                          (S (List.length l1)) l2)))).
  { unfold r. rewrite (print_tree_listed _ _ _ _ _ _ _ Hls), Hsplit.
    now rewrite print_items_split. }
  assert (Hitem : exists tl,
            child_lines prefix (fst r) =
            child_lines prefix
              (fst (print_items o rec dir_path prefix
                      (List.length (l1 ++ item :: l2)) 0 l1))
            ++ child_line o dir_path prefix (is_nil l2) item :: tl).
  { rewrite Hr, seq_emit. cbn [fst].
    change (Enter ?d ?p :: ?l) with ([Enter d p] ++ l).
    rewrite !child_lines_app, child_lines_matches. simpl app.
    destruct (child_lines_seq prefix
                (print_items o rec dir_path prefix
                   (List.length (l1 ++ item :: l2)) 0 l1)
                (seq (item_run o rec dir_path prefix (is_nil l2) item)
                   (print_items o rec dir_path prefix
                      (List.length (l1 ++ item :: l2))
                      (S (List.length l1)) l2)))
      as (tl & -> & Htl & _).
    rewrite (Htl Hl1).
    destruct (child_lines_seq prefix
                (item_run o rec dir_path prefix (is_nil l2) item)
                (print_items o rec dir_path prefix
                   (List.length (l1 ++ item :: l2))
                   (S (List.length l1)) l2))
      as (tl' & -> & _ & _).
    rewrite (child_lines_item_run o rec dir_path prefix Hdeep).
    now exists tl'. }
  destruct Hitem as (tl & Hlines).
  assert (Hnth : nth_error (child_lines prefix (fst r)) (List.length l1)
                 = Some (child_line o dir_path prefix (is_nil l2) item)).
  { rewrite Hlines, nth_error_app2;
      rewrite (child_lines_print_items_length o rec dir_path prefix _ _ Hdeep _ Hl1);
      [ | lia].
    now rewrite Nat.sub_diag. }
  split; [exact Hnth | ]. split; [ | split].
  - apply nth_error_In in Hnth. unfold child_lines in Hnth.
    apply filter_In in Hnth. destruct Hnth as [Hnth _].
    unfold printed in Hnth. apply in_flat_map in Hnth.
    destruct Hnth as ([x p | s | l] & Hx & Hl); simpl in Hl;
      try destruct Hl as [Hl | Hl]; try destruct Hl.
    exact Hx.
  - unfold child_line. destruct (os_path_isdir o (join dir_path item));
      destruct (is_nil l2); reflexivity.
  - intros Hd.
    destruct (child_lines_print_tree o fuel dir_path prefix root_path pathspec
                names Hls) as (k & Hk & Hall).
    fold r in Hk, Hall. rewrite Hsplit in Hk, Hall.
    rewrite Hk, (Hall Hd). apply expected_lines_firstn_all.
Qed.

Lemma enters_follow_app (a b : list event) :
  forall prev,
  enters_follow prev (a ++ b) <->
  enters_follow prev a /\ enters_follow (last_event prev a) b.
Proof.
  induction a as [ | e a IH]; intros prev; simpl; [tauto | ].
  rewrite IH. tauto.
Qed.

Lemma enters_follow_matches (o : OS) (dir_path root_path : path)
    (items : list string) (tl : list event) :
  forall prev,
  (forall prev', enters_follow prev' tl) ->
  enters_follow prev (filter_events o dir_path root_path items ++ tl).
Proof.
  induction items as [ | x l IH]; intros prev Htl; simpl; [apply Htl | ].
  split; [exact I | now apply IH].
Qed.

Lemma indent_for_connector (b : bool) : indent_for (connector_of b) = indent_of b.
Proof. destruct b; reflexivity. Qed.

Lemma print_tree_head (o : OS) (fuel : nat) (dir_path : path) (prefix : string)
    (root_path : path) (pathspec : PathSpec) :
  fst (print_tree o fuel dir_path prefix root_path pathspec) = [] \/
  exists tl,
    fst (print_tree o fuel dir_path prefix root_path pathspec) =
    Enter dir_path prefix :: tl.
Proof.
  destruct fuel as [ | fuel]; [now left | right].
  cbn [print_tree].
  destruct (os_listdir o dir_path) as [[ | | | | | | | ] | names];
    eexists; reflexivity.
Qed.

Section EntersFollow.

Variable o : OS.
Variable rec : path -> string -> run.
Variables (dir_path : path) (prefix : string).

Hypothesis rec_head :
  forall p pre, fst (rec p pre) = [] \/ exists tl, fst (rec p pre) = Enter p pre :: tl.
Hypothesis rec_follows : forall p pre, enters_follow None (fst (rec p pre)).

Lemma enters_follow_item_run (b : bool) (item : string) (tl : list event) :
  forall prev,
  (forall prev', enters_follow prev' tl) ->
  enters_follow prev (fst (item_run o rec dir_path prefix b item) ++ tl).
Proof.
  intros prev Htl. unfold item_run, child_line.
  destruct (os_path_isdir o (join dir_path item)).
  - rewrite seq_emit. cbn [fst]. simpl app.
    split; [destruct prev as [[ | | ] | ]; exact I | ].
    apply enters_follow_app. split; [ | apply Htl].
    specialize (rec_follows (join dir_path item) (prefix ++ indent_of b)%string).
    destruct (rec_head (join dir_path item) (prefix ++ indent_of b)%string)
      as [-> | (tl' & Heq)]; [exact I | ].
    rewrite Heq in *. simpl in *. split; [ | apply rec_follows].
    now rewrite indent_for_connector.
  - simpl. split; [destruct prev as [[ | | ] | ]; exact I | apply Htl].
Qed.

Lemma enters_follow_print_items (total_items : nat) (items : list string) :
  forall index prev,
  enters_follow prev
    (fst (print_items o rec dir_path prefix total_items index items)).
Proof.
  induction items as [ | item rest IH]; intros index prev; [exact I | ].
  rewrite print_items_cons.
  destruct (seq_events
              (item_run o rec dir_path prefix (Nat.eqb index (total_items - 1)) item)
              (print_items o rec dir_path prefix total_items (S index) rest))
    as (tl & -> & Hdone & Hstop).
  apply enters_follow_item_run.
  destruct (outcome_eq_dec_done
              (snd (item_run o rec dir_path prefix
                      (Nat.eqb index (total_items - 1)) item))) as [Hd | Hd].
  - rewrite (Hdone Hd). intros prev'. apply IH.
  - rewrite (Hstop Hd). intros prev'. exact I.
Qed.

End EntersFollow.

Lemma enters_follow_print_tree (o : OS) (root_path : path)
    (pathspec : PathSpec) (fuel : nat) :
  forall (dir_path : path) (prefix : string),
  enters_follow None (fst (print_tree o fuel dir_path prefix root_path pathspec)).
Proof.
  induction fuel as [ | fuel IH]; intros dir_path prefix; [exact I | ].
  cbn [print_tree].
  destruct (os_listdir o dir_path) as [[ | | | | | | | ] | names];
    try (simpl; tauto).
  rewrite seq_emit. cbn [fst]. simpl app. split; [exact I | ].
  apply enters_follow_matches. intros prev'.
  apply enters_follow_print_items.
  - intros p pre. apply print_tree_head.
  - intros p pre. apply IH.
Qed.

(** C7.  In a call on a listed directory whose surviving children are
    [l1 ++ item :: l2], with [item] a directory, the run made for [item] is
    the line of [item] followed by [print_tree] on [item] with the prefix
    extended by four spaces when [item] is the last surviving child
    ([l2] empty) and by "│   " otherwise.  Throughout the events of the
    call, every deeper entry into [print_tree] directly follows the line of
    a directory and carries that line's prefix extended by the indentation
    of its connector. *)
Theorem recursion_prefix (o : OS) (fuel : nat) (dir_path : path)
    (prefix : string) (root_path : path) (pathspec : PathSpec)
    (names l1 l2 : list string) (item : string) :
  os_listdir o dir_path = inr names ->
  filter_items o dir_path root_path pathspec (sorted names) = l1 ++ item :: l2 ->
  os_path_isdir o (join dir_path item) = true ->
  let rec := fun p pre => print_tree o fuel p pre root_path pathspec in
  let total_items := List.length (l1 ++ item :: l2) in
  print_tree o (S fuel) dir_path prefix root_path pathspec =
  seq (emit (Enter dir_path prefix :: filter_events o dir_path root_path (sorted names)))
   (seq (print_items o rec dir_path prefix total_items 0 l1)
    (seq (emit [Print (DirLine prefix (connector_of (is_nil l2)) (item ++ "/"))])
     (seq (print_tree o fuel (join dir_path item)
             (prefix ++ (if is_nil l2 then "    " else "│   "))
             root_path pathspec)
          (print_items o rec dir_path prefix total_items (S (List.length l1)) l2))))
  /\ enters_follow None
       (fst (print_tree o (S fuel) dir_path prefix root_path pathspec)).
Proof.
  intros Hls Hsplit Hdir rec total_items.
  split; [ | apply enters_follow_print_tree].
  simpl print_tree. rewrite Hls, Hsplit. f_equal.
  rewrite print_items_split. f_equal. rewrite <- seq_assoc. f_equal.
  unfold item_run, child_line. rewrite Hdir.
  destruct (is_nil l2); reflexivity.
Qed.

(* ================================================================= *)
(** ** The paths presented to the matcher *)

(** Every question to the matcher is about a child of a listed directory
    at or below the directory the call started from. *)
Lemma match_events_below (o : OS) (root : path) (pathspec : PathSpec)
    (fuel : nat) :
  forall (rel : path) (prefix s : string),
  In (Match s) (fst (print_tree o fuel (root ++ rel) prefix root pathspec)) ->
  exists (rel' : path) (names : list string) (item : string),
    (exists q, rel' = rel ++ q) /\
    os_listdir o (root ++ rel') = inr names /\
    In item names /\
    s = matcher_path o (root ++ rel') root item.
Proof.
  induction fuel as [ | fuel IH]; intros rel prefix s H; [destruct H | ].
  apply in_print_tree in H.
  destruct H as [H | [H | (names & Hls & [(item & Hin & H) | (item & b & Hin & _ & [H | [_ H]])])]];
    try discriminate.
  - injection H as ->. exists rel, names, item.
    split; [exists []; now rewrite app_nil_r | auto].
  - unfold join in H. rewrite <- app_assoc in H. apply IH in H.
    destruct H as (rel' & names' & item' & (q & ->) & Hls' & Hin' & ->).
    exists ((rel ++ [item]) ++ q), names', item'.
    split; [exists ([item] ++ q); now rewrite app_assoc | auto].
Qed.

(** C8.  Every path presented to the matcher belongs to a child [item] of
    a listed directory [root ++ rel'] at or below the directory of the call;
    it is the child's path relative to the root, its components separated by
    "/", followed by "/" exactly when the child is a directory.  As names
    hold no separator, the path ends with "/" if and only if the child is a
    directory. *)
Theorem matcher_path_form (o : OS) (root : path) (pathspec : PathSpec)
    (fuel : nat) (rel : path) (prefix s : string) :
  valid_listings o ->
  In (Match s) (fst (print_tree o fuel (root ++ rel) prefix root pathspec)) ->
  exists (rel' : path) (names : list string) (item : string),
    (exists q, rel' = rel ++ q) /\
    os_listdir o (root ++ rel') = inr names /\
    In item names /\
    s = String.append (String.concat "/" (rel' ++ [item]))
          (if os_path_isdir o (root ++ rel' ++ [item]) then "/" else "") /\
    ends_with_slash s = os_path_isdir o (root ++ rel' ++ [item]).
Proof.
  intros Hvalid H. apply match_events_below in H.
  destruct H as (rel' & names & item & Hq & Hls & Hin & ->).
  exists rel', names, item. repeat split; try assumption.
  - apply matcher_path_below.
  - apply ends_with_slash_matcher_path.
    pose proof (Hvalid _ _ Hls) as Hall. rewrite forallb_forall in Hall.
    now apply Hall.
Qed.

(* ================================================================= *)
(** ** The root *)

Lemma main_loaded (o : OS) (from_lines : list string -> exn + PathSpec)
    (fuel : nat) (cwd : path) (pathspec : PathSpec) :
  load_treeignore_patterns o from_lines (join cwd ".treeignore") = inr pathspec ->
  main o from_lines fuel cwd =
  seq (emit [Print (RootLine (root_name_of cwd))])
      (print_tree o fuel cwd "" cwd pathspec).
Proof. intros H. unfold main. now rewrite H. Qed.

(** So does [main]. *)
Lemma main_fuel_suffices (fs : node)
    (from_lines : list string -> exn + PathSpec) (fuel : nat) (cwd : path) :
  depth_bound fs cwd <= fuel ->
  snd (main (os_of fs) from_lines fuel cwd) <> OutOfFuel.
Proof.
  intros Hfuel. unfold main.
  destruct (load_treeignore_patterns (os_of fs) from_lines (join cwd ".treeignore"));
    [discriminate | ].
  rewrite seq_emit. cbn [snd]. now apply fuel_suffices.
Qed.

(** The loader has no handler of its own: what [from_lines] raises leaves
    [load_treeignore_patterns]. *)
Lemma load_propagates (o : OS) (from_lines : list string -> exn + PathSpec)
    (ignore_file : path) (patterns : list string) (e : exn) :
  os_path_exists o ignore_file = true ->
  os_read_lines o ignore_file = inr patterns ->
  from_lines patterns = inl e ->
  load_treeignore_patterns o from_lines ignore_file = inl e.
Proof.
  intros Hex Hrd He. unfold load_treeignore_patterns. now rewrite Hex, Hrd.
Qed.

(** C10.  Once the rules are loaded, whatever they match, [main] prints the
    root line first, and every path it presents to the matcher is that of a
    child of a listed directory at or below the root, never the root. *)
Theorem root_is_never_matched (o : OS)
    (from_lines : list string -> exn + PathSpec) (fuel : nat) (cwd : path)
    (pathspec : PathSpec) :
  load_treeignore_patterns o from_lines (join cwd ".treeignore") = inr pathspec ->
  let r := main o from_lines fuel cwd in
  (exists tl, fst r = Print (RootLine (root_name_of cwd)) :: tl) /\
  (forall s, In (Match s) (fst r) ->
     exists (rel : path) (names : list string) (item : string),
       os_listdir o (cwd ++ rel) = inr names /\
       In item names /\
       s = String.append (String.concat "/" (rel ++ [item]))
             (if os_path_isdir o (cwd ++ rel ++ [item]) then "/" else "")).
Proof.
  intros Hload r. unfold r. rewrite (main_loaded _ _ _ _ _ Hload), seq_emit.
  cbn [fst]. split; [eexists; reflexivity | ].
  intros s [H | H]; [discriminate | ].
  rewrite <- (app_nil_r cwd) in H at 1. apply match_events_below in H.
  destruct H as (rel & names & item & _ & Hls & Hin & ->).
  exists rel, names, item. repeat split; try assumption.
  apply matcher_path_below.
Qed.

(** C2, as amended.  With the rules loaded: when listing the root is denied,
    [main] prints the root line and the marker line under the empty prefix,
    returns, and the exit status is 0; when listing the root fails in any
    other way the exception leaves [main] right after the root line and the
    exit status is not 0.  The exit status is 0 exactly when [main]
    returns. *)
Theorem root_listing_failure (o : OS)
    (from_lines : list string -> exn + PathSpec) (fuel : nat) (cwd : path)
    (pathspec : PathSpec) :
  load_treeignore_patterns o from_lines (join cwd ".treeignore") = inr pathspec ->
  let r := main o from_lines (S fuel) cwd in
  (os_listdir o cwd = inl PermissionError ->
   r = ([Print (RootLine (root_name_of cwd)); Enter cwd "";
         Print (DeniedLine "")], Done) /\
   exit_status r = 0) /\
  (forall e, e <> PermissionError -> os_listdir o cwd = inl e ->
   r = ([Print (RootLine (root_name_of cwd)); Enter cwd ""], Raised e) /\
   exit_status r <> 0) /\
  (exit_status r = 0 <-> snd r = Done).
Proof.
  intros Hload r. unfold r. rewrite (main_loaded _ _ _ _ _ Hload).
  cbn [print_tree]. split; [ | split].
  - intros Hls. rewrite Hls. split; reflexivity.
  - intros e He Hls. rewrite Hls.
    destruct e; try congruence; split; try reflexivity; discriminate.
  - unfold exit_status. destruct (snd _); split; congruence.
Qed.

(* ================================================================= *)
(** ** A directory that cannot be listed *)

Lemma erase_marker_plain (d : path) (e : event) (tl : list event) :
  no_lead_marker tl -> erase_marker d (e :: tl) = e :: erase_marker d tl.
Proof.
  intros H. destruct e; try reflexivity.
  destruct tl as [ | [ | | [ | | | ]] tl]; try reflexivity.
  destruct H.
Qed.

Lemma erase_marker_print (d : path) (l : line) (tl : list event) :
  erase_marker d (Print l :: tl) = Print l :: erase_marker d tl.
Proof. reflexivity. Qed.

Lemma erase_marker_app (d : path) (a b : list event) :
  no_lead_marker b ->
  erase_marker d (a ++ b) = erase_marker d a ++ erase_marker d b.
Proof.
  intros Hb. induction a as [ | e a IH]; [reflexivity | ].
  destruct e as [p pre | s | l]; try (simpl; now rewrite IH).
  destruct a as [ | [p' pre' | s | [ | | | x]] a];
    try (simpl in *; now rewrite IH).
  - simpl app. now rewrite erase_marker_plain.
  - simpl in *. injection IH as IH.
    destruct (path_eq_dec p d); simpl; now rewrite IH.
Qed.

Section Unlock.

Variable o : OS.
Variable d : path.
Variables (root_path : path) (pathspec : PathSpec).

Hypothesis d_denied : os_listdir o d = inl PermissionError.

Lemma agree_seq (a' a b' b : run) :
  agree_up_to_marker d a' a -> agree_up_to_marker d b' b ->
  fst a <> [] ->
  agree_up_to_marker d (seq a' b') (seq a b).
Proof.
  intros (Hs & Hf & Hn) (Hs' & Hf' & Hn') Hne.
  destruct a as [ta oa], a' as [ta' oa'], b as [tb ob], b' as [tb' ob'].
  simpl in *. subst. unfold agree_up_to_marker, seq. simpl.
  destruct oa; simpl; repeat split; auto.
  - now rewrite erase_marker_app.
  - destruct ta; [congruence | exact Hn].
Qed.

Lemma matcher_path_unlock (dir_path : path) (item : string) :
  matcher_path (unlock o d) dir_path root_path item =
  matcher_path o dir_path root_path item.
Proof. reflexivity. Qed.

Lemma print_items_unlock (rec' rec : path -> string -> run) (dir_path : path)
    (prefix : string) (total_items : nat) (items : list string) :
  (forall p pre, agree_up_to_marker d (rec' p pre) (rec p pre)) ->
  forall index,
  agree_up_to_marker d
    (print_items (unlock o d) rec' dir_path prefix total_items index items)
    (print_items o rec dir_path prefix total_items index items).
Proof.
  intros Hrec. induction items as [ | item rest IH]; intros index.
  - repeat split.
  - rewrite !print_items_cons. apply agree_seq; [ | apply IH | ].
    + unfold item_run, child_line. simpl os_path_isdir.
      destruct (os_path_isdir o (join dir_path item)).
      * apply agree_seq; [repeat split | apply Hrec | discriminate].
      * repeat split.
    + unfold item_run. destruct (os_path_isdir o (join dir_path item));
        [rewrite seq_emit | ]; discriminate.
Qed.

Lemma print_tree_unlock (fuel : nat) :
  forall (start : path) (prefix : string),
  agree_up_to_marker d
    (print_tree (unlock o d) fuel start prefix root_path pathspec)
    (print_tree o fuel start prefix root_path pathspec).
Proof.
  induction fuel as [ | fuel IH]; intros start prefix; [repeat split | ].
  cbn [print_tree]. simpl os_listdir.
  destruct (path_eq_dec start d) as [-> | Hne].
  - rewrite d_denied.
    repeat split. simpl. destruct (path_eq_dec d d); [reflexivity | congruence].
  - destruct (os_listdir o start) as [[ | | | | | | | ] | names].
    1-8: repeat split; simpl; destruct (path_eq_dec start d); congruence.
    apply agree_seq; [ | | discriminate].
    + repeat split. unfold emit. cbn [fst].
      rewrite erase_marker_plain.
      * f_equal. unfold filter_events.
        induction (sorted names) as [ | x l IHl]; [reflexivity | ].
        simpl. now rewrite <- IHl.
      * unfold filter_events. destruct (sorted names); exact I.
    + apply print_items_unlock. apply IH.
Qed.

End Unlock.

(** C9.  A directory [d] whose listing is denied yields, in the call made
    for it, exactly the marker line under the prefix of that call, and the
    call returns.  Seen from any enclosing call, the run is, event for event
    and with the same end, the run in which [d] is a readable empty
    directory, but for that one marker line: the lines of the siblings
    before and after [d] and of all ancestors, with their prefixes and
    connectors, are the same. *)
Theorem denied_directory_is_local (o : OS) (d root_path : path)
    (pathspec : PathSpec) :
  os_listdir o d = inl PermissionError ->
  (forall fuel prefix,
     print_tree o (S fuel) d prefix root_path pathspec =
     ([Enter d prefix; Print (DeniedLine prefix)], Done)) /\
  (forall fuel start prefix,
     let r := print_tree o fuel start prefix root_path pathspec in
     let r' := print_tree (unlock o d) fuel start prefix root_path pathspec in
     snd r' = snd r /\ fst r' = erase_marker d (fst r)).
Proof.
  intros Hd. split.
  - intros fuel prefix. cbn [print_tree]. now rewrite Hd.
  - intros fuel start prefix.
    destruct (print_tree_unlock o d root_path pathspec Hd fuel start prefix)
      as (Hs & Hf & _).
    split; assumption.
Qed.

(* ================================================================= *)
(** ** An excluded directory *)

Lemma visible_app (a b : list event) : visible (a ++ b) = visible a ++ visible b.
Proof. apply filter_app. Qed.

Lemma visible_filter_events (o : OS) (dir_path root_path : path)
    (items : list string) :
  visible (filter_events o dir_path root_path items) = [].
Proof. induction items as [ | x l IH]; [reflexivity | exact IH]. Qed.

Lemma same_visible_seq (a' a b' b : run) :
  same_visible a' a -> same_visible b' b -> same_visible (seq a' b') (seq a b).
Proof.
  intros (Hs & Hf) (Hs' & Hf').
  destruct a as [ta oa], a' as [ta' oa'], b as [tb ob], b' as [tb' ob'].
  simpl in *. subst. unfold same_visible, seq. simpl.
  destruct oa; simpl; split; auto.
  now rewrite !visible_app, Hf, Hf'.
Qed.

Lemma same_visible_refl (r : run) : same_visible r r.
Proof. split; reflexivity. Qed.

Section Hide.

Variable o : OS.
Variables (root_path : path) (pathspec : PathSpec).
Variables (dir_path : path) (c : string).

Hypothesis c_ignored :
  should_ignore (matcher_path o dir_path root_path c) pathspec = true.

Lemma print_items_hide (rec' rec : path -> string -> run) (d : path)
    (prefix : string) (total_items : nat) (items : list string) :
  (forall p pre, same_visible (rec' p pre) (rec p pre)) ->
  forall index,
  same_visible
    (print_items (hide o dir_path c) rec' d prefix total_items index items)
    (print_items o rec d prefix total_items index items).
Proof.
  intros Hrec. induction items as [ | item rest IH]; intros index.
  - apply same_visible_refl.
  - rewrite !print_items_cons. apply same_visible_seq; [ | apply IH].
    unfold item_run, child_line. simpl os_path_isdir.
    destruct (os_path_isdir o (join d item)).
    + apply same_visible_seq; [apply same_visible_refl | apply Hrec].
    + apply same_visible_refl.
Qed.

Lemma filter_items_hide (names : list string) :
  filter_items (hide o dir_path c) dir_path root_path pathspec
    (sorted (filter (fun n => negb (String.eqb n c)) names)) =
  filter_items o dir_path root_path pathspec (sorted names).
Proof.
  rewrite sorted_filter. unfold filter_items.
  apply filter_filter_weaker. intros x _ Hx.
  apply negb_true_iff. apply String.eqb_neq. intros ->.
  change (matcher_path (hide o dir_path c) dir_path root_path c)
    with (matcher_path o dir_path root_path c) in Hx.
  rewrite c_ignored in Hx. discriminate.
Qed.

Lemma print_tree_hide (fuel : nat) :
  forall (start : path) (prefix : string),
  same_visible
    (print_tree (hide o dir_path c) fuel start prefix root_path pathspec)
    (print_tree o fuel start prefix root_path pathspec).
Proof.
  induction fuel as [ | fuel IH]; intros start prefix;
    [apply same_visible_refl | ].
  cbn [print_tree]. simpl os_listdir.
  destruct (os_listdir o start) as [[ | | | | | | | ] | names].
  1-8: apply same_visible_refl.
  destruct (path_eq_dec start dir_path) as [-> | Hne].
  - rewrite filter_items_hide. apply same_visible_seq.
    + split; [reflexivity | ]. unfold emit. cbn [fst].
      change (Enter ?d ?p :: ?l) with ([Enter d p] ++ l).
      now rewrite !visible_app, !visible_filter_events.
    + apply print_items_hide. apply IH.
  - apply same_visible_seq; [apply same_visible_refl | ].
    apply print_items_hide. apply IH.
Qed.

End Hide.

Lemma enter_events_below (o : OS) (root_path : path) (pathspec : PathSpec)
    (fuel : nat) :
  forall (start : path) (prefix : string) (x : path) (pre : string),
  In (Enter x pre) (fst (print_tree o fuel start prefix root_path pathspec)) ->
  exists q,
    x = start ++ q /\
    forall q1 item q2,
      q = q1 ++ item :: q2 ->
      should_ignore (matcher_path o (start ++ q1) root_path item) pathspec = false.
Proof.
  induction fuel as [ | fuel IH]; intros start prefix x pre H; [destruct H | ].
  apply in_print_tree in H.
  destruct H as [H | [H | (names & Hls & [(item & Hin & H) | (item & b & Hin & Hkeep & [H | [_ H]])])]];
    try discriminate.
  - injection H as -> ->. exists []. split; [now rewrite app_nil_r | ].
    intros [ | ? ?] ? ? Hq; discriminate.
  - apply IH in H. destruct H as (q & -> & Hq).
    exists (item :: q). unfold join. rewrite <- app_assoc. split; [reflexivity | ].
    intros [ | y q1] it q2 Heq; injection Heq as -> ->.
    + now rewrite app_nil_r.
    + specialize (Hq q1 it q2 eq_refl). unfold join in Hq.
      now rewrite <- app_assoc in Hq.
Qed.

(** C4.  Let [c] be a directory child of [root ++ rel] whose root-relative
    path with its trailing slash the matcher excludes.  Then no call that
    starts at or above [root ++ rel] ever enters [c] or anything below it;
    and the run, in the directories it enters, the lines it prints and the
    way it ends, is the run on the system where [root ++ rel] has no entry
    [c] at all: no line is printed for [c] or for anything below it,
    whatever the matcher says about those descendants. *)
Theorem excluded_directory_is_discarded (o : OS) (root rel : path)
    (pathspec : PathSpec) (c : string) :
  os_path_isdir o (root ++ rel ++ [c]) = true ->
  should_ignore (String.append (String.concat "/" (rel ++ [c])) "/") pathspec = true ->
  (forall fuel start below prefix q pre,
     root ++ rel = start ++ below ->
     ~ In (Enter (root ++ rel ++ [c] ++ q) pre)
          (fst (print_tree o fuel start prefix root pathspec))) /\
  (forall fuel start prefix,
     let r := print_tree o fuel start prefix root pathspec in
     let r' := print_tree (hide o (root ++ rel) c) fuel start prefix root pathspec in
     snd r' = snd r /\ visible (fst r') = visible (fst r)).
Proof.
  intros Hdir Hign.
  assert (Hc : should_ignore (matcher_path o (root ++ rel) root c) pathspec = true).
  { rewrite matcher_path_below, Hdir. exact Hign. }
  split.
  - intros fuel start below prefix q pre Hstart Hin.
    apply enter_events_below in Hin. destruct Hin as (q0 & Heq & Hq0).
    rewrite (app_assoc root), Hstart, <- app_assoc in Heq.
    apply app_inv_head in Heq. symmetry in Heq.
    specialize (Hq0 below c q Heq). rewrite <- Hstart in Hq0. congruence.
  - intros fuel start prefix.
    apply (print_tree_hide o root pathspec (root ++ rel) c Hc).
Qed.

(* ================================================================= *)
(** ** No ignore rules *)

Lemma names_shown_app (a b : list event) :
  names_shown (a ++ b) = names_shown a ++ names_shown b.
Proof. unfold names_shown. now rewrite printed_app, flat_map_app. Qed.

Lemma names_shown_filter_events (o : OS) (dir_path root_path : path)
    (items : list string) :
  names_shown (filter_events o dir_path root_path items) = [].
Proof. induction items as [ | x l IH]; [reflexivity | exact IH]. Qed.

Lemma walk_dir (es : list (string * node)) :
  walk (Dir Listable es) =
  flat_map (fun n => match lookup n es with
                     | Some c => display_name n c :: walk c
                     | None => []
                     end)
           (sorted (map fst es)).
Proof.
  simpl. apply flat_map_ext. intros n.
  rewrite (lookup_map (fun n c => display_name n c :: walk c)).
  destruct (lookup n es); reflexivity.
Qed.

Section Walk.

Variable fs : node.
Variables (root_path : path) (pathspec : PathSpec).

Lemma print_items_walk (rec : path -> string -> run) (dir_path : path)
    (prefix : string) (a : access) (es : list (string * node))
    (total_items : nat) (items : list string) :
  resolve fs dir_path = Some (Dir a es) ->
  (forall item pre a' es',
     lookup item es = Some (Dir a' es') ->
     snd (rec (join dir_path item) pre) = Done /\
     names_shown (fst (rec (join dir_path item) pre)) = walk (Dir a' es')) ->
  incl items (map fst es) ->
  forall index,
  snd (print_items (os_of fs) rec dir_path prefix total_items index items) = Done /\
  names_shown (fst (print_items (os_of fs) rec dir_path prefix total_items index items))
  = flat_map (walk_child es) items.
Proof.
  intros Hdir Hrec. induction items as [ | item rest IH]; intros Hincl index.
  - split; reflexivity.
  - rewrite print_items_cons.
    destruct (lookup_in item es (Hincl item (or_introl eq_refl))) as (c & Hl & _).
    destruct (IH (fun x Hx => Hincl x (or_intror Hx)) (S index)) as (Hd & Hn).
    assert (Hitem :
      snd (item_run (os_of fs) rec dir_path prefix
             (Nat.eqb index (total_items - 1)) item) = Done /\
      names_shown (fst (item_run (os_of fs) rec dir_path prefix
                          (Nat.eqb index (total_items - 1)) item))
      = walk_child es item).
    { unfold item_run, child_line, walk_child. simpl os_path_isdir.
      rewrite (resolve_child _ _ _ _ _ Hdir), Hl.
      destruct c as [ls | a' es']; simpl node_isdir; cbv iota.
      - split; reflexivity.
      - destruct (Hrec item (prefix ++ indent_of (Nat.eqb index (total_items - 1)))%string
                    a' es' Hl) as (Hd' & Hn').
        rewrite seq_emit. cbn [fst snd]. split; [exact Hd' | ].
        change (?e :: ?l) with ([e] ++ l) at 1.
        rewrite names_shown_app, Hn'. reflexivity. }
    destruct Hitem as (Hd1 & Hn1).
    split.
    + apply seq_done. split; assumption.
    + destruct (seq_events
                  (item_run (os_of fs) rec dir_path prefix
                     (Nat.eqb index (total_items - 1)) item)
                  (print_items (os_of fs) rec dir_path prefix total_items
                     (S index) rest)) as (tl & -> & Htl & _).
      rewrite (Htl Hd1), names_shown_app, Hn1, Hn. reflexivity.
Qed.

Hypothesis no_rules : forall s, match_file pathspec s = false.

Lemma print_tree_walk (fuel : nat) :
  forall (dir_path : path) (prefix : string) (a : access)
         (es : list (string * node)),
  resolve fs dir_path = Some (Dir a es) ->
  faultless (Dir a es) = true ->
  height (Dir a es) < fuel ->
  let r := print_tree (os_of fs) fuel dir_path prefix root_path pathspec in
  snd r = Done /\ names_shown (fst r) = walk (Dir a es).
Proof.
  induction fuel as [ | fuel IH]; intros dir_path prefix a es Hdir Hl Hh r;
    [lia | ].
  destruct a; [ | | simpl in Hl; discriminate].
  2:{ unfold r. cbn [print_tree]. simpl os_listdir. rewrite Hdir.
      split; reflexivity. }
  unfold r.
  rewrite (print_tree_listed _ _ _ _ _ _ _ (listdir_of_dir _ _ _ Hdir)).
  rewrite (filter_items_none _ _ _ _ _ no_rules).
  destruct (print_items_walk
              (fun p pre => print_tree (os_of fs) fuel p pre root_path pathspec)
              dir_path prefix Listable es
              (List.length (sorted (map fst es))) (sorted (map fst es)) Hdir)
    with (index := 0) as (Hd & Hn).
  - intros item pre a' es' Hlk. apply IH.
    + now rewrite (resolve_child _ _ _ _ _ Hdir).
    + eapply faultless_child; [exact Hl | eapply lookup_some_in, Hlk].
    + apply lookup_some_in, (height_child Listable) in Hlk. lia.
  - intros x Hx. now apply in_sorted.
  - rewrite seq_emit. cbn [fst snd]. split; [exact Hd | ].
    rewrite names_shown_app.
    change (names_shown (Enter dir_path prefix :: ?l)) with (names_shown l).
    rewrite names_shown_filter_events, Hn, walk_dir.
    reflexivity.
Qed.

End Walk.

Lemma walk_perm_height (k : nat) :
  forall t, height t <= k -> distinct_names t = true ->
            Permutation (walk t) (all_entries t).
Proof.
  induction k as [ | k IH]; intros [ls | [ | | ] es] Hh Hd;
    try apply perm_nil; [simpl in Hh; lia | ].
  rewrite walk_dir. cbn [all_entries].
  transitivity (flat_map (walk_child es) (map fst es)).
  { apply Permutation_flat_map, Permutation_sym, sorted_perm. }
  assert (Hsub : forall l, incl l es ->
            Permutation (flat_map (walk_child es) (map fst l))
              (flat_map (fun e => let '(n, c) := e in
                                  display_name n c :: all_entries c) l)).
  { induction l as [ | [n c] l IHl]; intros Hincl; [apply perm_nil | ].
    simpl. unfold walk_child at 1.
    rewrite (lookup_nodup es n c);
      [ | eapply distinct_names_dir, Hd | apply Hincl; now left].
    apply perm_skip. apply Permutation_app.
    - apply IH.
      + assert (Hc : In (n, c) es) by (apply Hincl; now left).
        apply (height_child Listable) in Hc. lia.
      + eapply distinct_names_child; [exact Hd | apply Hincl; now left].
    - apply IHl. intros x Hx. apply Hincl. now right. }
  apply (Hsub es), incl_refl.
Qed.

Lemma walk_perm (t : node) :
  distinct_names t = true -> Permutation (walk t) (all_entries t).
Proof. apply (walk_perm_height (height t)), le_n. Qed.

(** C5, amended.  Take a directory of a tree whose height is below the
    number of nested calls of [print_tree] that the recursion limit leaves
    room for, in which no listing fails but by denied access and no
    directory holds two entries of one name, and a matcher that excludes
    nothing.  Then the call on the directory returns; the names its entry
    lines show are, in order, those of the depth-first walk of the tree,
    which holds every entry that the listings give exactly once; and the
    lines printed for the children of the directory are one per child, in
    ascending order of the names.  As [dir_path] is any directory of the
    tree, the order holds for the children of each directory. *)
Theorem every_entry_once_in_order (fs : node) (root_path : path)
    (pathspec : PathSpec) (depth : nat) (dir_path : path) (prefix : string)
    (a : access) (es : list (string * node)) :
  resolve fs dir_path = Some (Dir a es) ->
  faultless (Dir a es) = true ->
  distinct_names (Dir a es) = true ->
  (forall s, match_file pathspec s = false) ->
  height (Dir a es) < depth ->
  let r := print_tree_within (os_of fs) depth dir_path prefix root_path pathspec in
  snd r = Done /\
  names_shown (fst r) = walk (Dir a es) /\
  Permutation (names_shown (fst r)) (all_entries (Dir a es)) /\
  child_lines prefix (fst r) =
    expected_lines (os_of fs) dir_path prefix (sorted (listing a es)) /\
  StronglySorted le_name (sorted (listing a es)) /\
  Permutation (listing a es) (sorted (listing a es)).
Proof.
  intros Hdir Hl Hd Hnone Hh r.
  destruct (print_tree_walk fs root_path pathspec Hnone depth dir_path prefix
              a es Hdir Hl Hh) as (Hdone & Hnames).
  unfold r, print_tree_within. rewrite (at_limit_returns _ Hdone).
  clear r.
  set (r := print_tree (os_of fs) depth dir_path prefix root_path pathspec) in *.
  split; [exact Hdone | ]. split; [exact Hnames | ].
  split; [rewrite Hnames; now apply walk_perm | ].
  split; [ | split; [apply sorted_sorted | apply sorted_perm]].
  destruct depth as [ | fuel]; [lia | ].
  destruct a; [ | | simpl in Hl; discriminate].
  2:{ unfold r. cbn [print_tree]. simpl os_listdir. rewrite Hdir. reflexivity. }
  simpl listing.
  destruct (child_lines_print_tree (os_of fs) fuel dir_path prefix root_path
              pathspec (map fst es) (listdir_of_dir _ _ _ Hdir))
    as (k & Hk & Hall).
  fold r in Hk, Hall. rewrite (filter_items_none _ _ _ _ _ Hnone) in Hk, Hall.
  rewrite Hk, (Hall Hdone). apply expected_lines_firstn_all.
Qed.

(* ================================================================= *)
(** ** The pattern matcher *)

Section MatcherFacts.

Import Gitwildmatch.

Lemma decide_none (rules : list rule) (matched : bool) (p : string) :
  (forall r, In r rules -> rule_matches r p = false) ->
  decide rules matched p = matched.
Proof.
  revert matched. induction rules as [ | r rules IH]; intros matched H;
    [reflexivity | ].
  simpl. rewrite (H r) by now left. apply IH. intros r' Hr'. apply H. now right.
Qed.

Lemma decide_last (pre post : list rule) (r : rule) (matched : bool) (p : string) :
  rule_matches r p = true ->
  (forall r', In r' post -> rule_matches r' p = false) ->
  decide (pre ++ r :: post) matched p = negb (negated r).
Proof.
  intros Hr Hpost. revert matched.
  induction pre as [ | r0 pre IH]; intros matched.
  - simpl. rewrite Hr. now apply decide_none.
  - simpl. apply IH.
Qed.

Lemma compile_app (l1 l2 : list string) :
  compile (l1 ++ l2) = compile l1 ++ compile l2.
Proof.
  induction l1 as [ | line l1 IH]; [reflexivity | ].
  simpl. destruct (compile_line line); simpl; now rewrite IH.
Qed.

Lemma has_slash_app (a b : string) :
  has_slash (a ++ b) = has_slash a || has_slash b.
Proof.
  induction a as [ | c a IH]; [reflexivity | ].
  simpl. now rewrite IH, orb_assoc.
Qed.

Lemma segments_nonempty (s : string) : segments s <> [].
Proof.
  destruct s as [ | c s]; [discriminate | ]. simpl.
  destruct (is_slash c); [discriminate | ].
  destruct (segments s); discriminate.
Qed.

Lemma segments_no_slash (s : string) :
  Forall (fun seg => has_slash seg = false) (segments s).
Proof.
  induction s as [ | c s IH]; [repeat constructor | ]. simpl.
  destruct (is_slash c) eqn:Hc; [now constructor | ].
  destruct (segments s) as [ | seg rest]; [repeat constructor; simpl; now rewrite Hc | ].
  inversion IH as [ | ? ? Hseg Hrest]; subst.
  constructor; [simpl; now rewrite Hc, Hseg | exact Hrest].
Qed.

Lemma has_slash_basename (p : string) : has_slash (basename p) = false.
Proof.
  unfold basename.
  pose proof (segments_no_slash (chop_slash p)) as H.
  rewrite Forall_forall in H. apply H.
  destruct (exists_last (segments_nonempty (chop_slash p))) as (l & x & ->).
  rewrite last_last. apply in_or_app. right. now left.
Qed.

Lemma above_nonempty (segs d : list string) : In d (above segs) -> d <> [].
Proof.
  destruct segs as [ | seg [ | y rest]]; simpl; try tauto.
  intros [<- | H]; [discriminate | ].
  apply in_map_iff in H. destruct H as (d' & <- & _). discriminate.
Qed.

Lemma above_last (segs : list string) :
  map (fun d => last d EmptyString) (above segs) = removelast segs.
Proof.
  induction segs as [ | seg rest IH]; [reflexivity | ].
  destruct rest as [ | y rest]; [reflexivity | ].
  change (above (seg :: y :: rest))
    with ([seg] :: map (cons seg) (above (y :: rest))).
  change (removelast (seg :: y :: rest)) with (seg :: removelast (y :: rest)).
  rewrite <- IH. cbn [map last]. f_equal. rewrite map_map.
  apply map_ext_in. intros d Hd. apply above_nonempty in Hd.
  destruct d; [congruence | reflexivity].
Qed.

Lemma existsb_map {A B : Type} (f : B -> bool) (g : A -> B) (l : list A) :
  existsb f (map g l) = existsb (fun x => f (g x)) l.
Proof. induction l as [ | x l IH]; [reflexivity | simpl; now rewrite IH]. Qed.

(** A rule without a slash matches a path when its wildcards match one of
    the segments. *)
Lemma rule_matches_some_segment (n : bool) (pat : list glob) (p : string) :
  rule_matches {| negated := n; dir_only := false; anchored := false;
                  pattern := pat |} p
  = existsb (gmatch pat) (segments (chop_slash p)).
Proof.
  unfold rule_matches, subject. cbn [dir_only anchored pattern andb negb].
  rewrite <- (existsb_map (gmatch pat) (fun d => last d EmptyString)), above_last.
  rewrite (app_removelast_last EmptyString (segments_nonempty (chop_slash p))) at 3.
  rewrite existsb_app. simpl. now rewrite orb_false_r.
Qed.

Lemma gmatch_star (p : list glob) (s : string) :
  gmatch (Star :: p) s = true <->
  exists a b, s = (a ++ b)%string /\ has_slash a = false /\ gmatch p b = true.
Proof.
  cbn [gmatch]. induction s as [ | x s IH].
  - rewrite orb_false_r. split.
    + intros H. now exists "", "".
    + intros (a & b & Heq & _ & Hb). destruct a; [ | discriminate].
      simpl in Heq. now subst b.
  - split.
    + intros H. apply orb_true_iff in H. destruct H as [H | H].
      * now exists "", (String x s).
      * apply andb_true_iff in H. destruct H as [Hx H].
        apply IH in H. destruct H as (a & b & -> & Ha & Hb).
        exists (String x a), b. repeat split; auto.
        simpl. apply negb_true_iff in Hx. now rewrite Hx.
    + intros (a & b & Heq & Ha & Hb). apply orb_true_iff.
      destruct a as [ | y a].
      * left. simpl in Heq. now subst b.
      * right. simpl in Heq. injection Heq as -> ->.
        simpl in Ha. apply orb_false_iff in Ha. destruct Ha as [Hy Ha].
        rewrite Hy. simpl. apply IH. now exists a, b.
Qed.

Lemma gmatch_literal (w s : string) : gmatch (literal w) s = true <-> s = w.
Proof.
  revert s. induction w as [ | c w IH]; intros [ | x s]; simpl;
    try (split; congruence).
  rewrite andb_true_iff, IH. split.
  - intros [Hx ->]. apply Ascii.eqb_eq in Hx. now subst.
  - intros [= -> ->]. split; [apply Ascii.eqb_refl | reflexivity].
Qed.

Lemma compile_log_rules : compile ["*.log"; "!keep.log"] = log_rules.
Proof. reflexivity. Qed.

(** C1, amended.  Of the rules compiled from the lines, in file order, the
    last one that matches a path decides: the path is excluded unless that
    rule is a negation, and a path no rule matches is not excluded.  For the
    lines "*.log" and "!keep.log", a path whose basename ends in ".log" is
    excluded if and only if none of its segments is "keep.log": an entry
    named "keep.log" is kept, be it a file or a directory, and so is what
    lies beneath such a directory. *)
Theorem last_matching_rule_decides :
  (forall lines p,
     (forall r, In r (compile lines) -> rule_matches r p = false) ->
     should_ignore p (from_lines lines) = false) /\
  (forall lines pre r post p,
     compile lines = pre ++ r :: post ->
     rule_matches r p = true ->
     (forall r', In r' post -> rule_matches r' p = false) ->
     should_ignore p (from_lines lines) = negb (negated r)) /\
  (forall l1 l2, compile (l1 ++ l2) = compile l1 ++ compile l2) /\
  (forall p stem,
     basename p = (stem ++ ".log")%string ->
     (should_ignore p (from_lines ["*.log"; "!keep.log"]) = true <->
      ~ In "keep.log" (segments (chop_slash p)))).
Proof.
  split; [ | split; [ | split]].
  - intros lines p H. unfold should_ignore. simpl. now apply decide_none.
  - intros lines pre r post p Hc Hr Hpost. unfold should_ignore. simpl.
    rewrite Hc. now apply decide_last.
  - apply compile_app.
  - intros p stem Hb. unfold should_ignore, from_lines. cbn [match_file].
    rewrite compile_log_rules. unfold log_rules. cbn [decide negated negb].
    rewrite !rule_matches_some_segment.
    assert (H1 : existsb (gmatch (Star :: literal ".log"))
                   (segments (chop_slash p)) = true).
    { apply existsb_exists. exists (basename p). split.
      - unfold basename.
        destruct (exists_last (segments_nonempty (chop_slash p))) as (l & x & ->).
        rewrite last_last. apply in_or_app. right. now left.
      - apply gmatch_star. exists stem, ".log". repeat split; [exact Hb | ].
        pose proof (has_slash_basename p) as Hs.
        rewrite Hb, has_slash_app in Hs. now apply orb_false_iff in Hs. }
    rewrite H1.
    destruct (existsb (gmatch (literal "keep.log")) (segments (chop_slash p)))
      eqn:H2.
    + apply existsb_exists in H2. destruct H2 as (seg & Hin & Hseg).
      apply gmatch_literal in Hseg. subst seg.
      split; [discriminate | intros H; now destruct H].
    + split; [ | reflexivity]. intros _ Hin.
      assert (Hex : existsb (gmatch (literal "keep.log"))
                      (segments (chop_slash p)) = true).
      { apply existsb_exists. exists "keep.log". split; [exact Hin | ].
        now apply gmatch_literal. }
      congruence.
Qed.

End MatcherFacts.

(* ================================================================= *)
(** ** Termination *)

Lemma more_fuel_le (o : OS) (root_path : path) (pathspec : PathSpec)
    (dir_path : path) (prefix : string) (fuel : nat) :
  snd (print_tree o fuel dir_path prefix root_path pathspec) <> OutOfFuel ->
  forall fuel', fuel <= fuel' ->
  print_tree o fuel' dir_path prefix root_path pathspec =
  print_tree o fuel dir_path prefix root_path pathspec.
Proof.
  intros H fuel' Hle. induction Hle as [ | fuel' Hle IH]; [reflexivity | ].
  rewrite <- IH. apply more_fuel. now rewrite IH.
Qed.

(** X1.  On a finite directory tree [print_tree] and [main] terminate: with
    fuel at or above the bound given by the height of the tree below the
    directory, the run ends by returning or by an exception, and it is the
    same run for every larger amount of fuel. *)
Theorem print_tree_terminates (fs : node)
    (from_lines : list string -> exn + PathSpec) (root_path : path)
    (pathspec : PathSpec) (dir_path : path) (prefix : string)
    (fuel fuel' : nat) :
  depth_bound fs dir_path <= fuel ->
  fuel <= fuel' ->
  snd (print_tree (os_of fs) fuel dir_path prefix root_path pathspec) <> OutOfFuel /\
  print_tree (os_of fs) fuel' dir_path prefix root_path pathspec =
  print_tree (os_of fs) fuel dir_path prefix root_path pathspec /\
  snd (main (os_of fs) from_lines fuel dir_path) <> OutOfFuel /\
  main (os_of fs) from_lines fuel' dir_path = main (os_of fs) from_lines fuel dir_path.
Proof.
  intros Hb Hle.
  assert (Hend : forall ps pre, snd (print_tree (os_of fs) fuel dir_path pre
                                       dir_path ps) <> OutOfFuel)
    by (intros; now apply fuel_suffices).
  split; [now apply fuel_suffices | ].
  split; [apply more_fuel_le; [now apply fuel_suffices | exact Hle] | ].
  split; [now apply main_fuel_suffices | ].
  unfold main.
  destruct (load_treeignore_patterns (os_of fs) from_lines
              (join dir_path ".treeignore")) as [e | ps]; [reflexivity | ].
  f_equal. apply more_fuel_le; [apply Hend | exact Hle].
Qed.

(* ================================================================= *)
(** ** A listing that fails in another way than by denied access *)

Lemma in_seq_cases (a b : run) (e : event) :
  In e (fst (seq a b)) ->
  In e (fst a) \/ (snd a = Done /\ In e (fst b)).
Proof.
  destruct a as [ta [ | x | ]]; unfold seq; simpl; auto.
  intros H. apply in_app_or in H. tauto.
Qed.

Lemma in_seq_l (a b : run) (e : event) : In e (fst a) -> In e (fst (seq a b)).
Proof.
  destruct a as [ta [ | x | ]]; unfold seq; simpl; auto.
  intros H. apply in_or_app. now left.
Qed.

Lemma in_seq_r (a b : run) (e : event) :
  snd a = Done -> In e (fst b) -> In e (fst (seq a b)).
Proof.
  destruct a as [ta [ | x | ]]; unfold seq; simpl; try discriminate.
  intros _ H. apply in_or_app. now right.
Qed.

Lemma stopped_at_seq_l (ev : event) (e : exn) (a b : run) :
  stopped_at ev e a -> stopped_at ev e (seq a b).
Proof.
  intros [Hs Ht]. rewrite seq_stops by (rewrite Hs; discriminate). now split.
Qed.

Lemma stopped_at_seq_r (ev : event) (e : exn) (a b : run) :
  snd a = Done -> stopped_at ev e b -> stopped_at ev e (seq a b).
Proof.
  intros Ha [Hs (t & Ht)]. destruct a as [ta oa], b as [tb ob].
  simpl in *. subst. unfold seq, stopped_at. simpl.
  split; [reflexivity | ]. exists (ta ++ t). now rewrite app_assoc.
Qed.

Lemma print_items_stopped (o : OS) (rec : path -> string -> run)
    (dir_path : path) (prefix : string) (total_items : nat)
    (d : path) (pre : string) (e : exn) (items : list string) :
  (forall p pre', In (Enter d pre) (fst (rec p pre')) ->
                  stopped_at (Enter d pre) e (rec p pre')) ->
  forall index,
  In (Enter d pre) (fst (print_items o rec dir_path prefix total_items index items)) ->
  stopped_at (Enter d pre) e (print_items o rec dir_path prefix total_items index items).
Proof.
  intros Hrec. induction items as [ | item rest IH]; intros index; [intros [] | ].
  rewrite print_items_cons. intros H. apply in_seq_cases in H.
  destruct H as [H | [Hd H]].
  - apply stopped_at_seq_l. unfold item_run in *.
    destruct (os_path_isdir o (join dir_path item)).
    + apply in_seq_cases in H. destruct H as [H | [_ H]].
      * destruct H as [H | H]; [discriminate | destruct H].
      * apply stopped_at_seq_r; [reflexivity | now apply Hrec].
    + destruct H as [H | H]; [discriminate | destruct H].
  - apply stopped_at_seq_r; [exact Hd | now apply IH].
Qed.

(** X2.  A directory [d] whose listing fails in another way than by denied
    access ends the whole traversal: in a run of any enclosing call that
    enters [d], entering [d] is the last event, nothing is printed after it,
    and the exception leaves the call. *)
Theorem other_listing_failure_is_fatal (o : OS) (d root_path : path)
    (pathspec : PathSpec) (e : exn) (fuel : nat) :
  os_listdir o d = inl e ->
  e <> PermissionError ->
  forall (start : path) (prefix pre : string),
  In (Enter d pre) (fst (print_tree o fuel start prefix root_path pathspec)) ->
  snd (print_tree o fuel start prefix root_path pathspec) = Raised e /\
  exists t, fst (print_tree o fuel start prefix root_path pathspec) = t ++ [Enter d pre].
Proof.
  intros Hd He. induction fuel as [ | fuel IH]; intros start prefix pre H;
    [destruct H | ].
  cbn [print_tree] in *.
  destruct (os_listdir o start) as [e0 | names] eqn:Hls.
  - assert (Hstart : start = d /\ prefix = pre).
    { destruct e0; simpl in H;
        repeat (destruct H as [H | H];
                [first [discriminate | injection H as -> ->; now split] | ]);
        destruct H. }
    destruct Hstart as [-> ->]. rewrite Hd in Hls. injection Hls as <-.
    destruct e; try congruence; (split; [reflexivity | now exists []]).
  - apply in_seq_cases in H. destruct H as [H | [_ H]].
    + simpl in H. destruct H as [H | H].
      * injection H as -> ->. congruence.
      * unfold filter_events in H. apply in_map_iff in H.
        destruct H as (x & Hx & _). discriminate.
    + apply (stopped_at_seq_r (Enter d pre) e); [reflexivity | ].
      apply print_items_stopped; [ | exact H].
      intros p pre' Hp. now apply IH.
Qed.

(* ================================================================= *)
(** ** What is printed and what is entered *)

(** Every line [print_tree] prints is the marker of a directory whose
    listing was denied or the line of a listed entry that the matcher does
    not exclude. *)
Lemma printed_lines_listed (o : OS) (root_path : path)
    (pathspec : PathSpec) (fuel : nat) :
  forall (start : path) (prefix : string) (l : line),
  In (Print l) (fst (print_tree o fuel start prefix root_path pathspec)) ->
  (exists q pre,
     l = DeniedLine pre /\ os_listdir o (start ++ q) = inl PermissionError) \/
  (exists q names item b pre,
     os_listdir o (start ++ q) = inr names /\
     In item names /\
     should_ignore (matcher_path o (start ++ q) root_path item) pathspec = false /\
     l = (if os_path_isdir o (start ++ q ++ [item])
          then DirLine pre (connector_of b) (item ++ "/")
          else FileLine pre (connector_of b) item)).
Proof.
  induction fuel as [ | fuel IH]; intros start prefix l H; [destruct H | ].
  destruct (os_listdir o start) as [e0 | names] eqn:Hls.
  - cbn [print_tree] in H. rewrite Hls in H. left. exists [], prefix.
    rewrite app_nil_r.
    destruct e0; simpl in H;
      repeat (destruct H as [H | H];
              [first [discriminate | injection H as <-; now split] | ]);
      destruct H.
  - rewrite (print_tree_listed _ _ _ _ _ _ _ Hls) in H.
    apply in_seq_cases in H. destruct H as [H | [_ H]].
    + simpl in H. destruct H as [H | H]; [discriminate | ].
      unfold filter_events in H. apply in_map_iff in H.
      destruct H as (x & Hx & _). discriminate.
    + apply in_print_items in H. destruct H as (item & b & Hin & Hc).
      apply in_filter_items in Hin. destruct Hin as [Hin Hkeep].
      apply (proj1 (in_sorted _ _)) in Hin. destruct Hc as [Hc | [Hdir Hc]].
      * injection Hc as ->. right. exists [], names, item, b, prefix.
        rewrite app_nil_r. repeat split; assumption.
      * apply IH in Hc. unfold join in Hc.
        destruct Hc as [(q & pre & -> & Hq) | (q & ns & it & b' & pre & Hq & Hi & Hk & ->)].
        -- left. exists (item :: q), pre. split; [reflexivity | ].
           now rewrite <- app_assoc in Hq.
        -- right. exists (item :: q), ns, it, b', pre.
           rewrite <- !app_assoc in *. simpl in *. repeat split; assumption.
Qed.

Lemma printed_visible (tr : list event) : printed (visible tr) = printed tr.
Proof.
  induction tr as [ | [x p | m | l] tr IH]; simpl; [reflexivity | | | ];
    now rewrite ?IH.
Qed.

(** X3.  Every line [print_tree] prints is accounted for, at every depth:
    it is the marker of a directory at or below the start whose listing was
    denied, or the line of an entry that a listing at or below the start
    gave and that the matcher does not exclude, shown as a directory line
    exactly when [os.path.isdir] holds of it.  And an entry the matcher
    excludes, file or directory, leaves no trace: the lines printed, the
    directories entered and the way the run ends are those of the run on
    the system whose listing of the directory does not give that entry. *)
Theorem printed_lines_are_survivors (o : OS) (root_path : path)
    (pathspec : PathSpec) :
  (forall (fuel : nat) (start : path) (prefix : string) (l : line),
     In (Print l) (fst (print_tree o fuel start prefix root_path pathspec)) ->
     (exists q pre,
        l = DeniedLine pre /\ os_listdir o (start ++ q) = inl PermissionError) \/
     (exists q names item b pre,
        os_listdir o (start ++ q) = inr names /\
        In item names /\
        should_ignore (matcher_path o (start ++ q) root_path item) pathspec = false /\
        l = (if os_path_isdir o (start ++ q ++ [item])
             then DirLine pre (connector_of b) (item ++ "/")
             else FileLine pre (connector_of b) item))) /\
  (forall (dir_path : path) (c : string),
     should_ignore (matcher_path o dir_path root_path c) pathspec = true ->
     forall (fuel : nat) (start : path) (prefix : string),
     let r := print_tree o fuel start prefix root_path pathspec in
     let r' := print_tree (hide o dir_path c) fuel start prefix root_path pathspec in
     snd r' = snd r /\
     printed (fst r') = printed (fst r) /\
     visible (fst r') = visible (fst r)).
Proof.
  split.
  - intros fuel. apply printed_lines_listed.
  - intros dir_path c Hc fuel start prefix r r'.
    destruct (print_tree_hide o root_path pathspec dir_path c Hc fuel start prefix)
      as (Hs & Hv).
    fold r r' in Hs, Hv. split; [exact Hs | split; [ | exact Hv]].
    now rewrite <- (printed_visible (fst r')), Hv, printed_visible.
Qed.

(** X4.  Indentation follows depth: in a run started under [prefix], a call
    made for a directory [k] levels below the start carries [prefix]
    followed by exactly [k] indentation units, each four spaces or a bar and
    three spaces; and every printed line carries [prefix] followed by a
    whole number of such units. *)
Theorem prefix_tracks_depth (o : OS) (root_path : path) (pathspec : PathSpec)
    (fuel : nat) :
  forall (start : path) (prefix : string),
  (forall x pre,
     In (Enter x pre) (fst (print_tree o fuel start prefix root_path pathspec)) ->
     exists q bs,
       x = start ++ q /\ List.length bs = List.length q /\
       pre = (prefix ++ indents bs)%string) /\
  (forall l,
     In (Print l) (fst (print_tree o fuel start prefix root_path pathspec)) ->
     exists bs, line_prefix l = Some (prefix ++ indents bs)%string).
Proof.
  induction fuel as [ | fuel IH]; intros start prefix;
    [split; [intros x pre [] | intros l []] | ].
  split.
  - intros x pre H. apply in_print_tree in H.
    destruct H as [H | [H | (names & Hls & [(item & Hin & H) | (item & b & Hin & Hkeep & [H | [_ H]])])]];
      try discriminate.
    + injection H as -> ->. exists [], [].
      now rewrite app_nil_r, string_app_nil_r.
    + apply (proj1 (IH _ _)) in H. destruct H as (q & bs & -> & Hlen & ->).
      exists (item :: q), (b :: bs). unfold join.
      rewrite <- app_assoc, string_app_assoc. simpl. auto.
  - intros l H. apply in_print_tree in H.
    destruct H as [H | [H | (names & Hls & [(item & Hin & H) | (item & b & Hin & Hkeep & [H | [_ H]])])]];
      try discriminate.
    + injection H as ->. exists []. simpl. now rewrite string_app_nil_r.
    + injection H as ->. exists []. unfold child_line.
      destruct (os_path_isdir o (join start item)); simpl;
        now rewrite string_app_nil_r.
    + apply (proj2 (IH _ _)) in H. destruct H as (bs & ->).
      exists (b :: bs). now rewrite string_app_assoc.
Qed.

(** X5.  [print_tree] lists nothing but directories: apart from the
    directory the run starts at, every path it enters is one of which
    [os.path.isdir] holds. *)
Theorem only_directories_are_entered (o : OS) (root_path : path)
    (pathspec : PathSpec) (fuel : nat) :
  forall (start : path) (prefix : string) (x : path) (pre : string),
  In (Enter x pre) (fst (print_tree o fuel start prefix root_path pathspec)) ->
  x = start \/ os_path_isdir o x = true.
Proof.
  induction fuel as [ | fuel IH]; intros start prefix x pre H; [destruct H | ].
  apply in_print_tree in H.
  destruct H as [H | [H | (names & Hls & [(item & Hin & H) | (item & b & Hin & Hkeep & [H | [Hdir H]])])]];
    try discriminate.
  - injection H as -> ->. now left.
  - right. apply IH in H. destruct H as [-> | H]; assumption.
Qed.

(* ================================================================= *)
(** ** The exceptions of a run on a directory tree *)

Lemma print_items_raises (o : OS) (rec : path -> string -> run)
    (dir_path : path) (prefix : string) (total_items : nat) (P : exn -> Prop)
    (items : list string) :
  (forall item pre e,
     In item items ->
     os_path_isdir o (join dir_path item) = true ->
     snd (rec (join dir_path item) pre) = Raised e -> P e) ->
  forall index e,
  snd (print_items o rec dir_path prefix total_items index items) = Raised e -> P e.
Proof.
  induction items as [ | item rest IH]; intros Hrec index e; [discriminate | ].
  rewrite print_items_cons, snd_seq.
  destruct (snd (item_run o rec dir_path prefix
                   (Nat.eqb index (total_items - 1)) item)) as [ | e' | ] eqn:Hs.
  - apply IH. intros it pre e0 Hin. apply Hrec. now right.
  - intros [= <-]. unfold item_run in Hs.
    destruct (os_path_isdir o (join dir_path item)) eqn:Hd; [ | discriminate].
    rewrite seq_emit in Hs. eapply Hrec; [now left | exact Hd | exact Hs].
  - discriminate.
Qed.

Lemma isdir_of_tree (fs : node) (p : path) :
  os_path_isdir (os_of fs) p = true ->
  exists a es, resolve fs p = Some (Dir a es).
Proof.
  simpl. destruct (resolve fs p) as [[ls | a es] | ]; try discriminate.
  intros _. now exists a, es.
Qed.

(** On a directory tree, the exceptions [os.listdir] raises leave
    [print_tree] started at a directory only when a directory at or below
    it fails to list in another way than by denied access. *)
Lemma print_tree_raises_oserror (fs : node) (root_path : path)
    (pathspec : PathSpec) (fuel : nat) :
  forall (start : path) (prefix : string) (a : access)
         (es : list (string * node)) (e : exn),
  resolve fs start = Some (Dir a es) ->
  snd (print_tree (os_of fs) fuel start prefix root_path pathspec) = Raised e ->
  e = OSError /\ faultless (Dir a es) = false.
Proof.
  induction fuel as [ | fuel IH]; intros start prefix a es e Hr H;
    [discriminate | ].
  destruct a.
  - rewrite (print_tree_listed _ _ _ _ _ _ _ (listdir_of_dir _ _ _ Hr)) in H.
    rewrite snd_seq in H. cbn [emit snd] in H.
    apply (print_items_raises _ _ _ _ _
             (fun e => e = OSError /\ faultless (Dir Listable es) = false)) in H;
      [exact H | ].
    intros item pre e0 _ Hd He0.
    destruct (isdir_of_tree _ _ Hd) as (a' & es' & Hc).
    destruct (IH _ _ _ _ _ Hc He0) as [-> Hf]. split; [reflexivity | ].
    rewrite (resolve_child _ _ _ _ _ Hr) in Hc.
    apply lookup_some_in in Hc.
    destruct (faultless (Dir Listable es)) eqn:Hfl; [ | reflexivity].
    rewrite (faultless_child _ _ _ _ Hfl Hc) in Hf. discriminate.
  - cbn [print_tree] in H. simpl os_listdir in H. rewrite Hr in H. discriminate.
  - cbn [print_tree] in H. simpl os_listdir in H. rewrite Hr in H.
    injection H as <-. split; reflexivity.
Qed.

(** X6.  On a directory tree, only two exceptions can leave [print_tree]
    started at a directory.  One is the [OSError] of a directory at or
    below it that fails to list in another way than by denied access.  The
    other is [RecursionError], and only when the tree below the directory
    is at least as high as the number of nested calls the recursion limit
    leaves room for.  [print_tree] never runs into a missing path or a
    path that is no directory. *)
Theorem tree_raises_only_oserror (fs : node) (root_path : path)
    (pathspec : PathSpec) (depth : nat) :
  forall (start : path) (prefix : string) (a : access)
         (es : list (string * node)) (e : exn),
  resolve fs start = Some (Dir a es) ->
  snd (print_tree_within (os_of fs) depth start prefix root_path pathspec)
  = Raised e ->
  (e = OSError /\ faultless (Dir a es) = false) \/
  (e = RecursionError /\ depth <= height (Dir a es)).
Proof.
  intros start prefix a es e Hr H. unfold print_tree_within in H.
  apply at_limit_raises in H. destruct H as [H | [H ->]].
  - left. exact (print_tree_raises_oserror fs root_path pathspec depth start
                   prefix a es e Hr H).
  - right. split; [reflexivity | ].
    destruct (Nat.le_gt_cases depth (height (Dir a es))) as [Hle | Hgt];
      [exact Hle | ].
    now destruct (fuel_suffices_at fs root_path pathspec depth start prefix
                    (Dir a es) Hr Hgt).
Qed.

(* ================================================================= *)
(** ** Rules only remove lines *)

Lemma subseq_nil_l {A : Type} (l : list A) : subseq [] l.
Proof. induction l; constructor; assumption. Qed.

Lemma subseq_refl {A : Type} (l : list A) : subseq l l.
Proof. induction l; constructor; assumption. Qed.

Lemma subseq_app {A : Type} (a a' b b' : list A) :
  subseq a a' -> subseq b b' -> subseq (a ++ b) (a' ++ b').
Proof.
  induction 1 as [ | x l l' H IH | x l l' H IH]; intros Hb; simpl.
  - exact Hb.
  - apply subseq_skip. now apply IH.
  - apply subseq_take. now apply IH.
Qed.

Lemma subseq_trans {A : Type} (l2 l3 : list A) :
  subseq l2 l3 -> forall l1, subseq l1 l2 -> subseq l1 l3.
Proof.
  induction 1 as [ | x l2 l3 H IH | x l2 l3 H IH]; intros l1 H1.
  - exact H1.
  - constructor. now apply IH.
  - inversion H1; subst; constructor; now apply IH.
Qed.

Lemma subseq_flat_map_filter {A B : Type} (g : A -> list B) (f : A -> bool)
    (l : list A) :
  subseq (flat_map g (filter f l)) (flat_map g l).
Proof.
  induction l as [ | x l IH]; simpl; [constructor | ].
  destruct (f x); simpl.
  - apply subseq_app; [apply subseq_refl | exact IH].
  - change (flat_map g (filter f l)) with ([] ++ flat_map g (filter f l)).
    apply subseq_app; [apply subseq_nil_l | exact IH].
Qed.

Section Subwalk.

Variable fs : node.
Variables (root_path : path) (pathspec : PathSpec).

Lemma print_items_subwalk (rec : path -> string -> run) (dir_path : path)
    (prefix : string) (a : access) (es : list (string * node))
    (total_items : nat) (items : list string) :
  resolve fs dir_path = Some (Dir a es) ->
  (forall item pre a' es',
     lookup item es = Some (Dir a' es') ->
     snd (rec (join dir_path item) pre) = Done /\
     subseq (names_shown (fst (rec (join dir_path item) pre))) (walk (Dir a' es'))) ->
  incl items (map fst es) ->
  forall index,
  snd (print_items (os_of fs) rec dir_path prefix total_items index items) = Done /\
  subseq (names_shown (fst (print_items (os_of fs) rec dir_path prefix
                              total_items index items)))
         (flat_map (walk_child es) items).
Proof.
  intros Hdir Hrec. induction items as [ | item rest IH]; intros Hincl index.
  - split; [reflexivity | constructor].
  - rewrite print_items_cons.
    destruct (lookup_in item es (Hincl item (or_introl eq_refl))) as (c & Hl & _).
    destruct (IH (fun x Hx => Hincl x (or_intror Hx)) (S index)) as (Hd & Hn).
    assert (Hitem :
      snd (item_run (os_of fs) rec dir_path prefix
             (Nat.eqb index (total_items - 1)) item) = Done /\
      subseq (names_shown (fst (item_run (os_of fs) rec dir_path prefix
                                  (Nat.eqb index (total_items - 1)) item)))
             (walk_child es item)).
    { unfold item_run, child_line, walk_child. simpl os_path_isdir.
      rewrite (resolve_child _ _ _ _ _ Hdir), Hl.
      destruct c as [ls | a' es']; simpl node_isdir; cbv iota.
      - split; [reflexivity | apply subseq_refl].
      - destruct (Hrec item (prefix ++ indent_of (Nat.eqb index (total_items - 1)))%string
                    a' es' Hl) as (Hd' & Hn').
        rewrite seq_emit. cbn [fst snd]. split; [exact Hd' | ].
        change (?e :: ?l) with ([e] ++ l) at 1.
        rewrite names_shown_app. simpl. now constructor. }
    destruct Hitem as (Hd1 & Hn1).
    split.
    + apply seq_done. split; assumption.
    + destruct (seq_events
                  (item_run (os_of fs) rec dir_path prefix
                     (Nat.eqb index (total_items - 1)) item)
                  (print_items (os_of fs) rec dir_path prefix total_items
                     (S index) rest)) as (tl & -> & Htl & _).
      rewrite (Htl Hd1), names_shown_app. simpl. now apply subseq_app.
Qed.

Lemma print_tree_subwalk (fuel : nat) :
  forall (dir_path : path) (prefix : string) (a : access)
         (es : list (string * node)),
  resolve fs dir_path = Some (Dir a es) ->
  faultless (Dir a es) = true ->
  height (Dir a es) < fuel ->
  let r := print_tree (os_of fs) fuel dir_path prefix root_path pathspec in
  snd r = Done /\ subseq (names_shown (fst r)) (walk (Dir a es)).
Proof.
  induction fuel as [ | fuel IH]; intros dir_path prefix a es Hdir Hl Hh r;
    [lia | ].
  destruct a; [ | | simpl in Hl; discriminate].
  2:{ unfold r. cbn [print_tree]. simpl os_listdir. rewrite Hdir.
      split; [reflexivity | constructor]. }
  unfold r.
  rewrite (print_tree_listed _ _ _ _ _ _ _ (listdir_of_dir _ _ _ Hdir)).
  destruct (print_items_subwalk
              (fun p pre => print_tree (os_of fs) fuel p pre root_path pathspec)
              dir_path prefix Listable es
              (List.length (filter_items (os_of fs) dir_path root_path pathspec
                              (sorted (map fst es))))
              (filter_items (os_of fs) dir_path root_path pathspec
                 (sorted (map fst es))) Hdir)
    with (index := 0) as (Hd & Hn).
  - intros item pre a' es' Hlk. apply IH.
    + now rewrite (resolve_child _ _ _ _ _ Hdir).
    + eapply faultless_child; [exact Hl | eapply lookup_some_in, Hlk].
    + apply lookup_some_in, (height_child Listable) in Hlk. lia.
  - intros x Hx. apply in_filter_items in Hx. destruct Hx as [Hx _].
    now apply in_sorted.
  - rewrite seq_emit. cbn [fst snd]. split; [exact Hd | ].
    rewrite names_shown_app.
    change (names_shown (Enter dir_path prefix :: ?l)) with (names_shown l).
    rewrite names_shown_filter_events, walk_dir. simpl app.
    eapply subseq_trans; [ | exact Hn].
    apply subseq_flat_map_filter.
Qed.

End Subwalk.

(** X7.  Take a directory tree in which no listing fails but by denied
    access and whose height is below the number of nested calls the
    recursion limit leaves room for.  Whatever the matcher excludes, the
    call returns, and the names on its lines are those printed without any
    rule with some of them left out, in the same order: rules remove lines,
    they never add or reorder them. *)
Theorem rules_only_remove (fs : node) (root_path : path)
    (pathspec nothing : PathSpec) (depth : nat) (dir_path : path)
    (prefix : string) (a : access) (es : list (string * node)) :
  resolve fs dir_path = Some (Dir a es) ->
  faultless (Dir a es) = true ->
  (forall s, match_file nothing s = false) ->
  height (Dir a es) < depth ->
  let r := print_tree_within (os_of fs) depth dir_path prefix root_path pathspec in
  let r0 := print_tree_within (os_of fs) depth dir_path prefix root_path nothing in
  snd r = Done /\ snd r0 = Done /\
  subseq (names_shown (fst r)) (names_shown (fst r0)).
Proof.
  intros Hdir Hl Hnone Hh r r0.
  destruct (print_tree_subwalk fs root_path pathspec depth dir_path prefix a es
              Hdir Hl Hh) as (Hd & Hs).
  destruct (print_tree_walk fs root_path nothing Hnone depth dir_path prefix a es
              Hdir Hl Hh) as (Hd0 & Hw).
  unfold r, r0, print_tree_within.
  rewrite (at_limit_returns _ Hd), (at_limit_returns _ Hd0).
  split; [exact Hd | split; [exact Hd0 | ]]. now rewrite Hw.
Qed.

(** X8.  Take a directory tree in which no listing fails but by denied
    access and whose height is below the number of nested calls the
    recursion limit leaves room for.  Once the rules are loaded, [main]
    returns and the exit status is 0, whatever the rules are. *)
Theorem faultless_tree_exits_zero (fs : node)
    (from_lines : list string -> exn + PathSpec) (depth : nat) (cwd : path)
    (pathspec : PathSpec) (a : access) (es : list (string * node)) :
  load_treeignore_patterns (os_of fs) from_lines (join cwd ".treeignore")
    = inr pathspec ->
  resolve fs cwd = Some (Dir a es) ->
  faultless (Dir a es) = true ->
  height (Dir a es) < depth ->
  snd (main_within (os_of fs) from_lines depth cwd) = Done /\
  exit_status (main_within (os_of fs) from_lines depth cwd) = 0.
Proof.
  intros Hload Hdir Hl Hh.
  assert (Hd : snd (main (os_of fs) from_lines depth cwd) = Done).
  { rewrite (main_loaded _ _ _ _ _ Hload), seq_emit. cbn [snd].
    now apply (print_tree_subwalk fs cwd pathspec depth cwd "" a es). }
  unfold main_within. rewrite (at_limit_returns _ Hd).
  split; [exact Hd | ]. unfold exit_status. now rewrite Hd.
Qed.

(* ================================================================= *)
(** ** What a run depends on *)

Lemma sorted_unique (l : list string) :
  forall l',
  StronglySorted le_name l -> StronglySorted le_name l' ->
  Permutation l l' -> l = l'.
Proof.
  induction l as [ | x l IH]; intros l' Hs Hs' Hp.
  - apply Permutation_nil in Hp. now subst.
  - destruct l' as [ | y l'];
      [apply Permutation_sym, Permutation_nil in Hp; discriminate | ].
    inversion Hs as [ | ? ? Hl Hx]; inversion Hs' as [ | ? ? Hl' Hy]; subst.
    rewrite Forall_forall in Hx, Hy.
    assert (Hxy : x = y).
    { assert (Hx' : In x (y :: l'))
        by (eapply Permutation_in; [exact Hp | now left]).
      assert (Hy' : In y (x :: l))
        by (eapply Permutation_in; [apply Permutation_sym, Hp | now left]).
      destruct Hx' as [-> | Hx']; [reflexivity | ].
      destruct Hy' as [-> | Hy']; [reflexivity | ].
      apply String.leb_antisym; [apply Hx, Hy' | apply Hy, Hx']. }
    subst y. f_equal. apply IH; try assumption.
    eapply Permutation_cons_inv, Hp.
Qed.

Lemma sorted_permutation (l l' : list string) :
  Permutation l l' -> sorted l = sorted l'.
Proof.
  intros Hp. apply sorted_unique; try apply sorted_sorted.
  eapply perm_trans; [apply Permutation_sym, sorted_perm | ].
  eapply perm_trans; [exact Hp | apply sorted_perm].
Qed.

Lemma print_items_ext (o o' : OS) (rec rec' : path -> string -> run)
    (dir_path : path) (prefix : string) (total_items : nat)
    (items : list string) :
  (forall item, In item items ->
     os_path_isdir o (join dir_path item) = os_path_isdir o' (join dir_path item)) ->
  (forall item pre, In item items ->
     rec (join dir_path item) pre = rec' (join dir_path item) pre) ->
  forall index,
  print_items o rec dir_path prefix total_items index items =
  print_items o' rec' dir_path prefix total_items index items.
Proof.
  induction items as [ | item rest IH]; intros Hd Hrec index; [reflexivity | ].
  rewrite !print_items_cons. f_equal.
  - unfold item_run, child_line.
    rewrite <- (Hd item (or_introl eq_refl)).
    now rewrite (Hrec item _ (or_introl eq_refl)).
  - apply IH; intros; [apply Hd | apply Hrec]; now right.
Qed.

Lemma agree_below_child (start : path) (item : string) (o o' : OS) :
  agree_below start o o' -> agree_below (join start item) o o'.
Proof.
  intros [Hl Hd]. unfold join. split; intros q.
  - rewrite <- app_assoc. apply Hl.
  - intros _. rewrite <- app_assoc. apply Hd. discriminate.
Qed.

Lemma print_tree_ext (root_path : path) (pathspec : PathSpec) (o o' : OS)
    (fuel : nat) :
  forall (start : path) (prefix : string),
  agree_below start o o' ->
  print_tree o fuel start prefix root_path pathspec =
  print_tree o' fuel start prefix root_path pathspec.
Proof.
  induction fuel as [ | fuel IH]; intros start prefix Ha; [reflexivity | ].
  pose proof (proj1 Ha []) as Hl. rewrite app_nil_r in Hl.
  assert (Hd : forall item,
            os_path_isdir o (join start item) = os_path_isdir o' (join start item))
    by (intros item; apply (proj2 Ha); discriminate).
  assert (Hm : forall item,
            matcher_path o start root_path item = matcher_path o' start root_path item)
    by (intros item; unfold matcher_path; now rewrite Hd).
  cbn [print_tree].
  destruct (os_listdir o start) as [e | names], (os_listdir o' start) as [e' | names'].
  1: now subst e'.
  1, 2: destruct Hl.
  rewrite (sorted_permutation _ _ Hl).
  assert (Hf : filter_items o start root_path pathspec (sorted names') =
               filter_items o' start root_path pathspec (sorted names')).
  { unfold filter_items. apply filter_ext. intros item. now rewrite Hm. }
  rewrite Hf. f_equal.
  - unfold filter_events. f_equal. f_equal. apply map_ext.
    intros item. now rewrite Hm.
  - apply print_items_ext; [intros; apply Hd | ].
    intros item pre _. apply IH. now apply agree_below_child.
Qed.

(** X9.  The run of [print_tree] on a directory depends only on the names
    listed at and below that directory and on which of them are
    directories: on two systems that agree on these it is the same run,
    whatever else differs.  In particular the run does not depend on the
    order in which [os.listdir] returns the names, on anything outside the
    directory, or on the content of any file. *)
Theorem run_depends_on_subtree_only (root_path : path) (pathspec : PathSpec)
    (o o' : OS) (fuel : nat) (start : path) (prefix : string) :
  agree_below start o o' ->
  print_tree o fuel start prefix root_path pathspec =
  print_tree o' fuel start prefix root_path pathspec.
Proof. apply print_tree_ext. Qed.

(** X10.  [main] reads one rule file, that of the working directory: on two
    systems that agree at and below the working directory on listings and
    directories, and on the existence and the lines of its [.treeignore],
    [main] makes the same run.  A [.treeignore] anywhere else is not read;
    it is listed like any other file. *)
Theorem main_reads_only_the_root_rule_file (o o' : OS)
    (from_lines : list string -> exn + PathSpec) (fuel : nat) (cwd : path) :
  agree_below cwd o o' ->
  os_path_exists o (join cwd ".treeignore") = os_path_exists o' (join cwd ".treeignore") ->
  os_read_lines o (join cwd ".treeignore") = os_read_lines o' (join cwd ".treeignore") ->
  main o from_lines fuel cwd = main o' from_lines fuel cwd.
Proof.
  intros Ha Hex Hrd. unfold main, load_treeignore_patterns.
  rewrite <- Hex, <- Hrd.
  destruct (if os_path_exists o (join cwd ".treeignore")
            then match os_read_lines o (join cwd ".treeignore") with
                 | inl e => inl e
                 | inr patterns => from_lines patterns
                 end
            else from_lines []) as [e | ps]; [reflexivity | ].
  f_equal. now apply print_tree_ext.
Qed.

(* ================================================================= *)
(** ** The rule file *)

(** X11.  What [main] makes of the file [.treeignore] of the working
    directory, on any system.  When [os.path.exists] denies it, the file
    is never opened: the rules are those of the empty list of lines, and
    the run is the same whatever opening or reading it would give.  When
    it exists and can be read, the rules are those of its lines.  When
    opening or reading it raises, whatever the exception (denied access,
    which [print_tree] would survive on a directory, a directory in its
    place, bytes that are no text), [main] ends with that exception before
    it has printed anything, the root line included, and the exit status is
    not 0; so it does whenever the rules fail to compile. *)
Theorem rule_file_cases (o : OS)
    (from_lines : list string -> exn + PathSpec) (fuel : nat) (cwd : path) :
  let ignore_file := join cwd ".treeignore" in
  let r := main o from_lines fuel cwd in
  (os_path_exists o ignore_file = false ->
   load_treeignore_patterns o from_lines ignore_file = from_lines [] /\
   forall o', agree_below cwd o o' ->
              os_path_exists o' ignore_file = false ->
              main o' from_lines fuel cwd = r) /\
  (forall ls, os_path_exists o ignore_file = true ->
              os_read_lines o ignore_file = inr ls ->
              load_treeignore_patterns o from_lines ignore_file = from_lines ls) /\
  (forall e, os_path_exists o ignore_file = true ->
             os_read_lines o ignore_file = inl e ->
             r = ([], Raised e) /\ exit_status r <> 0) /\
  (forall e, load_treeignore_patterns o from_lines ignore_file = inl e ->
             r = ([], Raised e) /\ exit_status r <> 0).
Proof.
  intros ignore_file r. unfold r, main, load_treeignore_patterns.
  fold ignore_file.
  split; [ | split; [ | split]].
  - intros H. rewrite H. split; [reflexivity | ].
    intros o' Ha H'. rewrite H'.
    destruct (from_lines []) as [e | ps]; [reflexivity | ].
    f_equal. symmetry. now apply print_tree_ext.
  - intros ls H Hrd. now rewrite H, Hrd.
  - intros e H Hrd. rewrite H, Hrd. split; [reflexivity | discriminate].
  - intros e H. rewrite H. split; [reflexivity | discriminate].
Qed.

(* ================================================================= *)
(** ** The children of a directory under rules *)

Lemma filter_items_all_ignored (o : OS) (dir_path root_path : path)
    (pathspec : PathSpec) (items : list string) :
  (forall item, In item items ->
     should_ignore (matcher_path o dir_path root_path item) pathspec = true) ->
  filter_items o dir_path root_path pathspec items = [].
Proof.
  induction items as [ | x l IH]; intros H; [reflexivity | ].
  unfold filter_items in *. simpl. rewrite (H x) by now left. simpl.
  apply IH. intros; apply H; now right.
Qed.

(** X12.  A listed directory all of whose entries the matcher excludes, an
    empty directory included, prints no line: the run asks the matcher
    about every entry, returns, and needs no recursion for it. *)
Theorem nothing_survives (o : OS) (fuel : nat) (dir_path : path)
    (prefix : string) (root_path : path) (pathspec : PathSpec)
    (names : list string) :
  os_listdir o dir_path = inr names ->
  (forall item, In item names ->
     should_ignore (matcher_path o dir_path root_path item) pathspec = true) ->
  print_tree o (S fuel) dir_path prefix root_path pathspec =
  (Enter dir_path prefix :: filter_events o dir_path root_path (sorted names), Done) /\
  printed (fst (print_tree o (S fuel) dir_path prefix root_path pathspec)) = [].
Proof.
  intros Hls Hall.
  assert (Heq : print_tree o (S fuel) dir_path prefix root_path pathspec =
                (Enter dir_path prefix
                 :: filter_events o dir_path root_path (sorted names), Done)).
  { rewrite (print_tree_listed _ _ _ _ _ _ _ Hls).
    rewrite filter_items_all_ignored.
    - simpl print_items. now rewrite seq_nil_r.
    - intros item Hin. apply Hall. now apply in_sorted. }
  split; [exact Heq | ]. rewrite Heq. cbn [fst]. clear Heq.
  change (printed (filter_events o dir_path root_path (sorted names)) = []).
  induction (sorted names) as [ | x l IH]; [reflexivity | exact IH].
Qed.

(** X13.  Under any matcher, a call on a listed directory that returns has
    printed, for the children of the directory, the lines of exactly the
    entries the matcher does not exclude, in ascending order of their
    names: filtering the sorted names and sorting the filtered names give
    the same list. *)
Theorem survivors_in_order (o : OS) (fuel : nat) (dir_path : path)
    (prefix : string) (root_path : path) (pathspec : PathSpec)
    (names : list string) :
  os_listdir o dir_path = inr names ->
  snd (print_tree o (S fuel) dir_path prefix root_path pathspec) = Done ->
  let survivors := sorted (filter_items o dir_path root_path pathspec names) in
  child_lines prefix (fst (print_tree o (S fuel) dir_path prefix root_path pathspec))
  = expected_lines o dir_path prefix survivors /\
  StronglySorted le_name survivors /\
  (forall item,
     In item survivors <->
     In item names /\
     should_ignore (matcher_path o dir_path root_path item) pathspec = false).
Proof.
  intros Hls Hdone survivors.
  destruct (child_lines_print_tree o fuel dir_path prefix root_path pathspec
              names Hls) as (k & Hk & Hall).
  assert (Hs : filter_items o dir_path root_path pathspec (sorted names) = survivors).
  { unfold survivors, filter_items. symmetry. apply sorted_filter. }
  rewrite Hs in Hk, Hall. split; [ | split].
  - rewrite Hk, (Hall Hdone). apply expected_lines_firstn_all.
  - apply sorted_sorted.
  - intros item. unfold survivors. rewrite in_sorted. apply in_filter_items.
Qed.

(* ================================================================= *)
(** ** Every entry is presented to the matcher *)

Lemma print_items_transfer (o : OS) (rec : path -> string -> run)
    (dir_path : path) (prefix : string) (total_items : nat) (e e' : event)
    (items : list string) :
  (forall l, e <> Print l) ->
  (forall p pre, In e (fst (rec p pre)) -> In e' (fst (rec p pre))) ->
  forall index,
  In e (fst (print_items o rec dir_path prefix total_items index items)) ->
  In e' (fst (print_items o rec dir_path prefix total_items index items)).
Proof.
  intros Hne Hrec. induction items as [ | item rest IH]; intros index;
    [intros [] | ].
  rewrite print_items_cons. intros H. apply in_seq_cases in H.
  destruct H as [H | [Hd H]].
  - apply in_seq_l. unfold item_run in *.
    destruct (os_path_isdir o (join dir_path item)).
    + apply in_seq_cases in H. destruct H as [H | [_ H]].
      * destruct H as [H | H]; [ | destruct H].
        exfalso. eapply Hne. symmetry. exact H.
      * apply in_seq_r; [reflexivity | now apply Hrec].
    + destruct H as [H | H]; [ | destruct H].
      exfalso. eapply Hne. symmetry. exact H.
  - apply in_seq_r; [exact Hd | now apply IH].
Qed.

(** X14.  No entry gets past the matcher: whenever a run enters a directory
    that can be listed, it asks the matcher about every entry of that
    directory, with the path of the entry relative to the root. *)
Theorem every_entry_is_presented (o : OS) (root_path : path)
    (pathspec : PathSpec) (fuel : nat) :
  forall (start : path) (prefix : string) (d : path) (pre : string)
         (names : list string) (item : string),
  In (Enter d pre) (fst (print_tree o fuel start prefix root_path pathspec)) ->
  os_listdir o d = inr names ->
  In item names ->
  In (Match (matcher_path o d root_path item))
     (fst (print_tree o fuel start prefix root_path pathspec)).
Proof.
  induction fuel as [ | fuel IH]; intros start prefix d pre names item H Hd Hin;
    [destruct H | ].
  destruct (os_listdir o start) as [e0 | names0] eqn:Hls.
  - exfalso. cbn [print_tree] in H. rewrite Hls in H.
    assert (Hstart : start = d).
    { destruct e0; simpl in H;
        repeat (destruct H as [H | H];
                [first [discriminate | now injection H] | ]);
        destruct H. }
    subst. congruence.
  - rewrite (print_tree_listed _ _ _ _ _ _ _ Hls) in *.
    apply in_seq_cases in H. destruct H as [H | [_ H]].
    + apply in_seq_l. simpl in H |- *. destruct H as [H | H].
      * injection H as -> ->. right. rewrite Hls in Hd. injection Hd as ->.
        unfold filter_events. apply in_map_iff. exists item.
        split; [reflexivity | now apply in_sorted].
      * unfold filter_events in H. apply in_map_iff in H.
        destruct H as (x & Hx & _). discriminate.
    + apply in_seq_r; [reflexivity | ].
      apply (print_items_transfer _ _ _ _ _ (Enter d pre)); [discriminate | | exact H].
      intros p pre' Hp. now apply (IH _ _ _ _ _ _ Hp Hd).
Qed.

(* ================================================================= *)
(** ** The root line *)

Lemma print_tree_no_root_line (o : OS) (root_path : path) (pathspec : PathSpec)
    (fuel : nat) :
  forall (start : path) (prefix : string) (name : string),
  ~ In (Print (RootLine name))
       (fst (print_tree o fuel start prefix root_path pathspec)).
Proof.
  induction fuel as [ | fuel IH]; intros start prefix name H; [destruct H | ].
  apply in_print_tree in H.
  destruct H as [H | [H | (names & Hls & [(item & Hin & H) | (item & b & Hin & Hkeep & [H | [_ H]])])]];
    try discriminate.
  - unfold child_line in H.
    destruct (os_path_isdir o (join start item)); discriminate.
  - now apply IH in H.
Qed.

Lemma root_name_of_nonempty (cwd : path) : root_name_of cwd <> "".
Proof.
  unfold root_name_of. destruct (String.eqb_spec (last cwd "") "") as [H | H];
    [discriminate | exact H].
Qed.

(** X15.  Once the rules are loaded, [main] prints exactly one root line,
    and prints it first; it shows the last component of the working
    directory, or "/" for the root of the filesystem, and is never empty. *)
Theorem one_root_line (o : OS) (from_lines : list string -> exn + PathSpec)
    (fuel : nat) (cwd : path) (pathspec : PathSpec) :
  load_treeignore_patterns o from_lines (join cwd ".treeignore") = inr pathspec ->
  exists rest,
    printed (fst (main o from_lines fuel cwd)) = RootLine (root_name_of cwd) :: rest /\
    (forall name, ~ In (RootLine name) rest) /\
    root_name_of cwd <> "" /\
    (cwd = [] -> root_name_of cwd = "/") /\
    (forall dir name, name <> "" -> cwd = dir ++ [name] -> root_name_of cwd = name).
Proof.
  intros Hload. rewrite (main_loaded _ _ _ _ _ Hload), seq_emit. cbn [fst].
  exists (printed (fst (print_tree o fuel cwd "" cwd pathspec))).
  split; [reflexivity | ]. split; [ | split; [ | split]].
  - intros name Hin. unfold printed in Hin. apply in_flat_map in Hin.
    destruct Hin as ([x p | s | l] & Hx & Hl); simpl in Hl; try destruct Hl.
    + subst l. now apply print_tree_no_root_line in Hx.
    + destruct H.
  - apply root_name_of_nonempty.
  - intros ->. reflexivity.
  - intros dir name Hne ->. unfold root_name_of. rewrite last_last.
    apply String.eqb_neq in Hne. now rewrite Hne.
Qed.

(* ================================================================= *)
(** ** The strings handed to [print] *)

(** X16.  The string handed to [print] for every line of [print_tree] is
    laid out in the same way: the prefix of the run, a whole number of
    indentation units, one of the two connectors, then the body.  The body
    of a file line is the bare name, that of a directory line the colour
    codes and the name with a slash, and the marker of a denied directory
    always carries the closing connector. *)
Theorem print_arg_layout (o : OS) (root_path : path) (pathspec : PathSpec)
    (fuel : nat) :
  forall (start : path) (prefix : string) (l : line),
  In (Print l) (fst (print_tree o fuel start prefix root_path pathspec)) ->
  exists bs b,
    match l with
    | RootLine _ => False
    | DeniedLine _ =>
        b = true /\
        print_arg l
        = (prefix ++ indents bs ++ connector_of b ++ "[Permission Denied]")%string
    | DirLine _ _ display_name =>
        (exists item, display_name = (item ++ "/")%string) /\
        print_arg l
        = (prefix ++ indents bs ++ connector_of b ++ Fore_BLUE
           ++ Style_BRIGHT ++ display_name)%string
    | FileLine _ _ item =>
        print_arg l = (prefix ++ indents bs ++ connector_of b ++ item)%string
    end.
Proof.
  induction fuel as [ | fuel IH]; intros start prefix l H; [destruct H | ].
  apply in_print_tree in H.
  destruct H as [H | [H | (names & Hls & [(item & Hin & H) | (item & b & Hin & Hkeep & [H | [_ H]])])]];
    try discriminate.
  - injection H as ->. exists [], true. split; reflexivity.
  - injection H as ->. exists [], b. unfold child_line.
    destruct (os_path_isdir o (join start item)).
    + split; [now exists item | reflexivity].
    + reflexivity.
  - apply IH in H. destruct H as (bs & b' & H). exists (b :: bs), b'.
    cbn [indents]. destruct l as [n | p c d | p c i | p]; [exact H | | | ].
    + destruct H as [Hd ->]. split; [exact Hd | ]. now rewrite !string_app_assoc.
    + rewrite H. now rewrite !string_app_assoc.
    + destruct H as [Hb ->]. split; [exact Hb | ]. now rewrite !string_app_assoc.
Qed.

(* ================================================================= *)
(** ** A system with its listings reversed *)

Lemma agree_below_scrambled (keep start : path) (o : OS) :
  agree_below start o (scrambled keep o).
Proof.
  split.
  - intros q. simpl. destruct (os_listdir o (start ++ q)) as [e | names];
      [reflexivity | apply Permutation_rev].
  - intros q _. reflexivity.
Qed.

(* ================================================================= *)
(** ** The properties on the sample trees *)

Example sample_run :
  printed (fst (main (os_of sample_fs) sample_loader 4 ["r"])) =
  [RootLine "r"; FileLine "" "├── " ".treeignore"; DirLine "" "├── " "a/";
   DirLine "│   " "├── " "sub/"; DeniedLine "│   │   ";
   FileLine "│   " "└── " "x.txt"; FileLine "" "└── " "b.txt"] /\
  snd (main (os_of sample_fs) sample_loader 4 ["r"]) = Done.
Proof. split; reflexivity. Qed.

Example locked_root_run :
  main (os_of locked_fs) sample_loader 1 ["r"] =
  ([Print (RootLine "r"); Enter ["r"] ""; Print (DeniedLine "")], Done).
Proof. reflexivity. Qed.

Example open_run_names :
  names_shown (fst (print_tree (os_of open_fs) 4 ["r"] "" ["r"] no_rules)) =
  ["a/"; "sub/"; "x.txt"; "b.txt"; "build/"; "out.o"].
Proof. reflexivity. Qed.

Example star_log_rule :
  map (match_file (Gitwildmatch.from_lines ["*.log"]))
      ["a.log"; "dir/b.log"; "a.log.txt"] = [true; true; false].
Proof. reflexivity. Qed.

Example directory_rule :
  map (match_file (Gitwildmatch.from_lines ["foo/"]))
      ["foo/"; "foo"; "foo/bar"; "a/foo/sub/"] =
  [true; false; true; true].
Proof. reflexivity. Qed.

Example kept_beneath :
  map (match_file (Gitwildmatch.from_lines ["*.log"; "!keep.log"]))
      ["a.log"; "keep.log"; "keep.log/"; "keep.log/x.log"; "x.log/readme"] =
  [true; false; false; false; true].
Proof. reflexivity. Qed.

Example deep_chain_run :
  snd (main_within (os_of (deep_fs 1100)) (fun _ => inr no_rules)
         DEFAULT_RECURSION_LIMIT ["r"]) = Raised RecursionError /\
  exit_status (main_within (os_of (deep_fs 1100)) (fun _ => inr no_rules)
                 DEFAULT_RECURSION_LIMIT ["r"]) = 1.
Proof. split; vm_compute; reflexivity. Qed.

(** C1, as stated, fails: the directory "keep.log/" has a basename that
    ends in ".log" and is no file, yet the last rule that matches it is
    "!keep.log" and it is not excluded. *)
Lemma a_directory_named_keep_log_is_kept :
  ~ only_the_file_is_kept (Gitwildmatch.from_lines ["*.log"; "!keep.log"]).
Proof.
  intros H. destruct (H "keep.log/" "keep" eq_refl) as [H1 _].
  destruct (H1 eq_refl) as [H2 _]. discriminate H2.
Qed.

(** C2, as stated, fails: listing the root of [locked_fs] is denied, yet
    [main] returns and the exit status is 0. *)
Lemma root_denied_is_not_fatal :
  ~ root_failure_is_fatal (os_of locked_fs) sample_loader 1 ["r"].
Proof.
  intros H. destruct (H PermissionError eq_refl) as [Hraised _].
  discriminate Hraised.
Qed.

(** C5, as stated, fails: a chain of 1100 directories, all of them
    readable, is not shown in full, even if every frame the default
    recursion limit allows went to [print_tree]. *)
Lemma deep_chain_is_cut_short :
  ~ every_entry_shown_once (deep_fs 1100) DEFAULT_RECURSION_LIMIT ["r"].
Proof.
  intros H. specialize (H (chain 1100) eq_refl).
  apply Permutation_length in H. vm_compute in H. discriminate H.
Qed.

Lemma root_listing_failure_witness :
  load_treeignore_patterns (os_of locked_fs) sample_loader (join ["r"] ".treeignore")
    = inr sample_rules /\
  let r := main (os_of locked_fs) sample_loader 1 ["r"] in
  (os_listdir (os_of locked_fs) ["r"] = inl PermissionError ->
   r = ([Print (RootLine (root_name_of ["r"])); Enter ["r"] "";
         Print (DeniedLine "")], Done) /\
   exit_status r = 0) /\
  (forall e, e <> PermissionError -> os_listdir (os_of locked_fs) ["r"] = inl e ->
   r = ([Print (RootLine (root_name_of ["r"])); Enter ["r"] ""], Raised e) /\
   exit_status r <> 0) /\
  (exit_status r = 0 <-> snd r = Done).
Proof.
  split; [reflexivity | ].
  apply (root_listing_failure (os_of locked_fs) sample_loader 0 ["r"]
           sample_rules).
  reflexivity.
Defined.

Lemma last_matching_rule_decides_witness :
  (Gitwildmatch.basename "logs/a.log" = ("a" ++ ".log")%string /\
   ~ In "keep.log" (Gitwildmatch.segments (Gitwildmatch.chop_slash "logs/a.log")) /\
   should_ignore "logs/a.log" (Gitwildmatch.from_lines ["*.log"; "!keep.log"]) = true) /\
  (Gitwildmatch.compile ["*.log"; "!keep.log"]
   = [ {| Gitwildmatch.negated := false; Gitwildmatch.dir_only := false;
          Gitwildmatch.anchored := false;
          Gitwildmatch.pattern := Gitwildmatch.Star :: Gitwildmatch.literal ".log" |} ]
     ++ {| Gitwildmatch.negated := true; Gitwildmatch.dir_only := false;
           Gitwildmatch.anchored := false;
           Gitwildmatch.pattern := Gitwildmatch.literal "keep.log" |} :: [] /\
   should_ignore "keep.log/x.log" (Gitwildmatch.from_lines ["*.log"; "!keep.log"])
   = negb true).
Proof.
  assert (Hno : ~ In "keep.log"
                  (Gitwildmatch.segments (Gitwildmatch.chop_slash "logs/a.log")))
    by (vm_compute; intros [H | [H | []]]; discriminate H).
  split.
  - split; [reflexivity | split; [exact Hno | ]].
    exact (proj2 (proj2 (proj2 (proj2 last_matching_rule_decides))
                    "logs/a.log" "a" eq_refl) Hno).
  - split; [reflexivity | ].
    apply (proj1 (proj2 last_matching_rule_decides)
             ["*.log"; "!keep.log"]
             [ {| Gitwildmatch.negated := false; Gitwildmatch.dir_only := false;
                  Gitwildmatch.anchored := false;
                  Gitwildmatch.pattern :=
                    Gitwildmatch.Star :: Gitwildmatch.literal ".log" |} ]
             {| Gitwildmatch.negated := true; Gitwildmatch.dir_only := false;
                Gitwildmatch.anchored := false;
                Gitwildmatch.pattern := Gitwildmatch.literal "keep.log" |}
             [] "keep.log/x.log"); [reflexivity | reflexivity | ].
    intros r' [].
Defined.

Lemma excluded_directory_is_discarded_witness :
  os_path_isdir (os_of sample_fs) (["r"] ++ [] ++ ["build"]) = true /\
  should_ignore (String.append (String.concat "/" ([] ++ ["build"])) "/")
                sample_rules = true /\
  (forall fuel start below prefix q pre,
     ["r"] ++ [] = start ++ below ->
     ~ In (Enter (["r"] ++ [] ++ ["build"] ++ q) pre)
          (fst (print_tree (os_of sample_fs) fuel start prefix ["r"] sample_rules))) /\
  (forall fuel start prefix,
     let r := print_tree (os_of sample_fs) fuel start prefix ["r"] sample_rules in
     let r' := print_tree (hide (os_of sample_fs) (["r"] ++ []) "build")
                          fuel start prefix ["r"] sample_rules in
     snd r' = snd r /\ visible (fst r') = visible (fst r)).
Proof.
  split; [reflexivity | split; [reflexivity | ]].
  apply (excluded_directory_is_discarded (os_of sample_fs) ["r"] []
           sample_rules "build"); reflexivity.
Defined.

Lemma every_entry_once_in_order_witness :
  let es := [("b.txt", File []);
             ("a", Dir Listable
                     [("x.txt", File []);
                      ("sub", Dir Denied [("hidden", File [])])]);
             ("build", Dir Listable [("out.o", File [])]);
             (".treeignore", File ["build/"])] in
  resolve sample_fs ["r"] = Some (Dir Listable es) /\
  faultless (Dir Listable es) = true /\
  distinct_names (Dir Listable es) = true /\
  height (Dir Listable es) < 4 /\
  let r := print_tree_within (os_of sample_fs) 4 ["r"] "" ["r"] no_rules in
  snd r = Done /\
  names_shown (fst r) = walk (Dir Listable es) /\
  Permutation (names_shown (fst r)) (all_entries (Dir Listable es)) /\
  child_lines "" (fst r) =
    expected_lines (os_of sample_fs) ["r"] "" (sorted (listing Listable es)) /\
  StronglySorted le_name (sorted (listing Listable es)) /\
  Permutation (listing Listable es) (sorted (listing Listable es)).
Proof.
  intros es.
  split; [reflexivity | ]. split; [reflexivity | ]. split; [reflexivity | ].
  split; [simpl; lia | ].
  apply (every_entry_once_in_order sample_fs ["r"] no_rules 4 ["r"] "" Listable es);
    try reflexivity.
  simpl; lia.
Defined.

Lemma connector_of_each_child_witness :
  os_listdir (os_of sample_fs) ["r"] = inr ["b.txt"; "a"; "build"; ".treeignore"] /\
  filter_items (os_of sample_fs) ["r"] ["r"] sample_rules
    (sorted ["b.txt"; "a"; "build"; ".treeignore"])
  = [".treeignore"; "a"] ++ "b.txt" :: [] /\
  (forall it, In it [".treeignore"; "a"] ->
     os_path_isdir (os_of sample_fs) (join ["r"] it) = true ->
     snd (print_tree (os_of sample_fs) 2 (join ["r"] it) ("" ++ "│   ") ["r"]
            sample_rules) = Done) /\
  let r := print_tree (os_of sample_fs) 3 ["r"] "" ["r"] sample_rules in
  nth_error (child_lines "" (fst r)) (List.length [".treeignore"; "a"])
  = Some (child_line (os_of sample_fs) ["r"] "" (is_nil (@nil string)) "b.txt") /\
  In (Print (child_line (os_of sample_fs) ["r"] "" (is_nil (@nil string)) "b.txt"))
     (fst r) /\
  line_connector (child_line (os_of sample_fs) ["r"] "" (is_nil (@nil string)) "b.txt")
  = (if is_nil (@nil string) then "└── " else "├── ") /\
  (snd r = Done ->
   child_lines "" (fst r)
   = expected_lines (os_of sample_fs) ["r"] "" ([".treeignore"; "a"] ++ "b.txt" :: [])).
Proof.
  assert (Hbefore : forall it, In it [".treeignore"; "a"] ->
            os_path_isdir (os_of sample_fs) (join ["r"] it) = true ->
            snd (print_tree (os_of sample_fs) 2 (join ["r"] it) ("" ++ "│   ")
                   ["r"] sample_rules) = Done).
  { intros it [<- | [<- | []]] Hd; [discriminate Hd | reflexivity]. }
  split; [reflexivity | split; [reflexivity | split; [exact Hbefore | ]]].
  exact (connector_of_each_child (os_of sample_fs) 2 ["r"] "" ["r"] sample_rules
           ["b.txt"; "a"; "build"; ".treeignore"] [".treeignore"; "a"] []
           "b.txt" eq_refl eq_refl Hbefore).
Defined.

Lemma recursion_prefix_witness :
  os_listdir (os_of sample_fs) ["r"] = inr ["b.txt"; "a"; "build"; ".treeignore"] /\
  filter_items (os_of sample_fs) ["r"] ["r"] sample_rules
    (sorted ["b.txt"; "a"; "build"; ".treeignore"])
  = [".treeignore"] ++ "a" :: ["b.txt"] /\
  os_path_isdir (os_of sample_fs) (join ["r"] "a") = true /\
  let rec := fun p pre => print_tree (os_of sample_fs) 2 p pre ["r"] sample_rules in
  let total_items := List.length ([".treeignore"] ++ "a" :: ["b.txt"]) in
  print_tree (os_of sample_fs) 3 ["r"] "" ["r"] sample_rules =
  seq (emit (Enter ["r"] ""
             :: filter_events (os_of sample_fs) ["r"] ["r"]
                  (sorted ["b.txt"; "a"; "build"; ".treeignore"])))
   (seq (print_items (os_of sample_fs) rec ["r"] "" total_items 0 [".treeignore"])
    (seq (emit [Print (DirLine "" (connector_of (is_nil ["b.txt"])) ("a" ++ "/"))])
     (seq (print_tree (os_of sample_fs) 2 (join ["r"] "a")
             ("" ++ (if is_nil ["b.txt"] then "    " else "│   "))
             ["r"] sample_rules)
          (print_items (os_of sample_fs) rec ["r"] "" total_items
                       (S (List.length [".treeignore"])) ["b.txt"]))))
  /\ enters_follow None
       (fst (print_tree (os_of sample_fs) 3 ["r"] "" ["r"] sample_rules)).
Proof.
  split; [reflexivity | split; [reflexivity | split; [reflexivity | ]]].
  apply (recursion_prefix (os_of sample_fs) 2 ["r"] "" ["r"] sample_rules
           ["b.txt"; "a"; "build"; ".treeignore"] [".treeignore"] ["b.txt"] "a");
    reflexivity.
Defined.

Lemma matcher_path_form_witness :
  valid_listings (os_of sample_fs) /\
  In (Match "a/sub/")
     (fst (print_tree (os_of sample_fs) 3 (["r"] ++ []) "" ["r"] sample_rules)) /\
  exists (rel' : path) (names : list string) (item : string),
    (exists q, rel' = [] ++ q) /\
    os_listdir (os_of sample_fs) (["r"] ++ rel') = inr names /\
    In item names /\
    "a/sub/" = String.append (String.concat "/" (rel' ++ [item]))
                 (if os_path_isdir (os_of sample_fs) (["r"] ++ rel' ++ [item])
                  then "/" else "") /\
    ends_with_slash "a/sub/" = os_path_isdir (os_of sample_fs) (["r"] ++ rel' ++ [item]).
Proof.
  assert (Hvalid : valid_listings (os_of sample_fs))
    by (apply valid_tree_listings; reflexivity).
  assert (Hin : In (Match "a/sub/")
            (fst (print_tree (os_of sample_fs) 3 (["r"] ++ []) "" ["r"] sample_rules)))
    by (vm_compute; tauto).
  split; [exact Hvalid | split; [exact Hin | ]].
  exact (matcher_path_form (os_of sample_fs) ["r"] sample_rules 3 [] "" "a/sub/"
           Hvalid Hin).
Defined.

Lemma denied_directory_is_local_witness :
  os_listdir (os_of sample_fs) ["r"; "a"; "sub"] = inl PermissionError /\
  (forall fuel prefix,
     print_tree (os_of sample_fs) (S fuel) ["r"; "a"; "sub"] prefix ["r"] sample_rules =
     ([Enter ["r"; "a"; "sub"] prefix; Print (DeniedLine prefix)], Done)) /\
  (forall fuel start prefix,
     let r := print_tree (os_of sample_fs) fuel start prefix ["r"] sample_rules in
     let r' := print_tree (unlock (os_of sample_fs) ["r"; "a"; "sub"])
                          fuel start prefix ["r"] sample_rules in
     snd r' = snd r /\ fst r' = erase_marker ["r"; "a"; "sub"] (fst r)).
Proof.
  split; [reflexivity | ].
  apply (denied_directory_is_local (os_of sample_fs) ["r"; "a"; "sub"] ["r"]
           sample_rules).
  reflexivity.
Defined.

Lemma root_is_never_matched_witness :
  load_treeignore_patterns (os_of sample_fs) sample_loader (join ["r"] ".treeignore")
    = inr sample_rules /\
  let r := main (os_of sample_fs) sample_loader 3 ["r"] in
  (exists tl, fst r = Print (RootLine (root_name_of ["r"])) :: tl) /\
  (forall s, In (Match s) (fst r) ->
     exists (rel : path) (names : list string) (item : string),
       os_listdir (os_of sample_fs) (["r"] ++ rel) = inr names /\
       In item names /\
       s = String.append (String.concat "/" (rel ++ [item]))
             (if os_path_isdir (os_of sample_fs) (["r"] ++ rel ++ [item])
              then "/" else "")).
Proof.
  split; [reflexivity | ].
  apply (root_is_never_matched (os_of sample_fs) sample_loader 3 ["r"] sample_rules).
  reflexivity.
Defined.

Lemma print_tree_terminates_witness :
  depth_bound sample_fs ["r"] <= 4 /\
  4 <= 9 /\
  snd (print_tree (os_of sample_fs) 4 ["r"] "" ["r"] sample_rules) <> OutOfFuel /\
  print_tree (os_of sample_fs) 9 ["r"] "" ["r"] sample_rules =
  print_tree (os_of sample_fs) 4 ["r"] "" ["r"] sample_rules /\
  snd (main (os_of sample_fs) sample_loader 4 ["r"]) <> OutOfFuel /\
  main (os_of sample_fs) sample_loader 9 ["r"] =
  main (os_of sample_fs) sample_loader 4 ["r"].
Proof.
  split; [vm_compute; lia | split; [lia | ]].
  apply (print_tree_terminates sample_fs sample_loader ["r"] sample_rules ["r"]
           "" 4 9); [vm_compute; lia | lia].
Defined.

Lemma other_listing_failure_is_fatal_witness :
  os_listdir (os_of faulty_fs) ["r"; "bad"] = inl OSError /\
  OSError <> PermissionError /\
  In (Enter ["r"; "bad"] "│   ")
     (fst (print_tree (os_of faulty_fs) 3 ["r"] "" ["r"] no_rules)) /\
  snd (print_tree (os_of faulty_fs) 3 ["r"] "" ["r"] no_rules) = Raised OSError /\
  exists t,
    fst (print_tree (os_of faulty_fs) 3 ["r"] "" ["r"] no_rules)
    = t ++ [Enter ["r"; "bad"] "│   "].
Proof.
  assert (Hne : OSError <> PermissionError) by discriminate.
  assert (Hin : In (Enter ["r"; "bad"] "│   ")
            (fst (print_tree (os_of faulty_fs) 3 ["r"] "" ["r"] no_rules)))
    by (vm_compute; tauto).
  split; [reflexivity | split; [exact Hne | split; [exact Hin | ]]].
  exact (other_listing_failure_is_fatal (os_of faulty_fs) ["r"; "bad"] ["r"]
           no_rules OSError 3 eq_refl Hne ["r"] "" "│   " Hin).
Defined.

Lemma printed_lines_are_survivors_witness :
  should_ignore (matcher_path (os_of sample_fs) ["r"; "a"] ["r"] "x.txt") file_rules
  = true /\
  (let r := print_tree (os_of sample_fs) 4 ["r"] "" ["r"] file_rules in
   let r' := print_tree (hide (os_of sample_fs) ["r"; "a"] "x.txt") 4 ["r"] ""
               ["r"] file_rules in
   snd r' = snd r /\
   printed (fst r') = printed (fst r) /\
   visible (fst r') = visible (fst r)) /\
  In (Print (DirLine "│   " "└── " "sub/"))
     (fst (print_tree (os_of sample_fs) 4 ["r"] "" ["r"] file_rules)) /\
  ((exists q pre,
      DirLine "│   " "└── " "sub/" = DeniedLine pre /\
      os_listdir (os_of sample_fs) (["r"] ++ q) = inl PermissionError) \/
   (exists q names item b pre,
      os_listdir (os_of sample_fs) (["r"] ++ q) = inr names /\
      In item names /\
      should_ignore (matcher_path (os_of sample_fs) (["r"] ++ q) ["r"] item)
                    file_rules = false /\
      DirLine "│   " "└── " "sub/" =
        (if os_path_isdir (os_of sample_fs) (["r"] ++ q ++ [item])
         then DirLine pre (connector_of b) (item ++ "/")
         else FileLine pre (connector_of b) item))).
Proof.
  assert (Hin : In (Print (DirLine "│   " "└── " "sub/"))
            (fst (print_tree (os_of sample_fs) 4 ["r"] "" ["r"] file_rules)))
    by (vm_compute; tauto).
  split; [reflexivity | split; [ | split; [exact Hin | ]]].
  - exact (proj2 (printed_lines_are_survivors (os_of sample_fs) ["r"] file_rules)
                 ["r"; "a"] "x.txt" eq_refl 4 ["r"] "").
  - exact (proj1 (printed_lines_are_survivors (os_of sample_fs) ["r"] file_rules)
                 4 ["r"] "" (DirLine "│   " "└── " "sub/") Hin).
Defined.

Lemma prefix_tracks_depth_witness :
  In (Enter ["r"; "a"; "sub"] "│   │   ")
     (fst (print_tree (os_of sample_fs) 4 ["r"] "" ["r"] sample_rules)) /\
  exists q bs,
    ["r"; "a"; "sub"] = ["r"] ++ q /\
    List.length bs = List.length q /\
    "│   │   " = ("" ++ indents bs)%string.
Proof.
  assert (Hin : In (Enter ["r"; "a"; "sub"] "│   │   ")
            (fst (print_tree (os_of sample_fs) 4 ["r"] "" ["r"] sample_rules)))
    by (vm_compute; tauto).
  split; [exact Hin | ].
  exact (proj1 (prefix_tracks_depth (os_of sample_fs) ["r"] sample_rules 4
                  ["r"] "")
               ["r"; "a"; "sub"] "│   │   " Hin).
Defined.

Lemma only_directories_are_entered_witness :
  In (Enter ["r"; "a"; "sub"] "│   │   ")
     (fst (print_tree (os_of sample_fs) 4 ["r"] "" ["r"] sample_rules)) /\
  (["r"; "a"; "sub"] = ["r"] \/
   os_path_isdir (os_of sample_fs) ["r"; "a"; "sub"] = true).
Proof.
  assert (Hin : In (Enter ["r"; "a"; "sub"] "│   │   ")
            (fst (print_tree (os_of sample_fs) 4 ["r"] "" ["r"] sample_rules)))
    by (vm_compute; tauto).
  split; [exact Hin | ].
  exact (only_directories_are_entered (os_of sample_fs) ["r"] sample_rules 4
           ["r"] "" ["r"; "a"; "sub"] "│   │   " Hin).
Defined.

Lemma tree_raises_only_oserror_witness :
  let es := [("a", Dir Listable [("x.txt", File [])]);
             ("bad", Dir Faulty []);
             ("z.txt", File [])] in
  resolve faulty_fs ["r"] = Some (Dir Listable es) /\
  snd (print_tree_within (os_of faulty_fs) 3 ["r"] "" ["r"] no_rules)
  = Raised OSError /\
  ((OSError = OSError /\ faultless (Dir Listable es) = false) \/
   (OSError = RecursionError /\ 3 <= height (Dir Listable es))).
Proof.
  intros es.
  split; [reflexivity | split; [reflexivity | ]].
  apply (tree_raises_only_oserror faulty_fs ["r"] no_rules 3 ["r"] "" Listable
           es OSError); reflexivity.
Defined.

Lemma rules_only_remove_witness :
  let es := [("b.txt", File []);
             ("a", Dir Listable
                     [("x.txt", File []);
                      ("sub", Dir Denied [("hidden", File [])])]);
             ("build", Dir Listable [("out.o", File [])]);
             (".treeignore", File ["build/"])] in
  resolve sample_fs ["r"] = Some (Dir Listable es) /\
  faultless (Dir Listable es) = true /\
  (forall s, match_file no_rules s = false) /\
  height (Dir Listable es) < 4 /\
  let r := print_tree_within (os_of sample_fs) 4 ["r"] "" ["r"] sample_rules in
  let r0 := print_tree_within (os_of sample_fs) 4 ["r"] "" ["r"] no_rules in
  snd r = Done /\ snd r0 = Done /\
  subseq (names_shown (fst r)) (names_shown (fst r0)).
Proof.
  intros es.
  split; [reflexivity | ]. split; [reflexivity | ].
  split; [intros s; reflexivity | ]. split; [simpl; lia | ].
  apply (rules_only_remove sample_fs ["r"] sample_rules no_rules 4 ["r"] ""
           Listable es); [reflexivity | reflexivity | intros s; reflexivity | ].
  simpl; lia.
Defined.

Lemma faultless_tree_exits_zero_witness :
  let es := [("b.txt", File []);
             ("a", Dir Listable
                     [("x.txt", File []);
                      ("sub", Dir Denied [("hidden", File [])])]);
             ("build", Dir Listable [("out.o", File [])]);
             (".treeignore", File ["build/"])] in
  load_treeignore_patterns (os_of sample_fs) sample_loader (join ["r"] ".treeignore")
    = inr sample_rules /\
  resolve sample_fs ["r"] = Some (Dir Listable es) /\
  faultless (Dir Listable es) = true /\
  height (Dir Listable es) < 4 /\
  snd (main_within (os_of sample_fs) sample_loader 4 ["r"]) = Done /\
  exit_status (main_within (os_of sample_fs) sample_loader 4 ["r"]) = 0.
Proof.
  intros es.
  split; [reflexivity | ]. split; [reflexivity | ]. split; [reflexivity | ].
  split; [simpl; lia | ].
  apply (faultless_tree_exits_zero sample_fs sample_loader 4 ["r"] sample_rules
           Listable es); [reflexivity | reflexivity | reflexivity | ].
  simpl; lia.
Defined.

Lemma run_depends_on_subtree_only_witness :
  agree_below ["r"] (os_of sample_fs) (scrambled [] (os_of sample_fs)) /\
  os_listdir (scrambled [] (os_of sample_fs)) ["r"]
    = inr [".treeignore"; "build"; "a"; "b.txt"] /\
  print_tree (os_of sample_fs) 4 ["r"] "" ["r"] sample_rules =
  print_tree (scrambled [] (os_of sample_fs)) 4 ["r"] "" ["r"] sample_rules.
Proof.
  assert (Hagree : agree_below ["r"] (os_of sample_fs)
                     (scrambled [] (os_of sample_fs)))
    by apply agree_below_scrambled.
  split; [exact Hagree | split; [reflexivity | ]].
  exact (run_depends_on_subtree_only ["r"] sample_rules (os_of sample_fs)
           (scrambled [] (os_of sample_fs)) 4 ["r"] "" Hagree).
Defined.

Lemma main_reads_only_the_root_rule_file_witness :
  let o := os_of sample_fs in
  let o' := scrambled (join ["r"] ".treeignore") (os_of sample_fs) in
  agree_below ["r"] o o' /\
  os_path_exists o (join ["r"] ".treeignore")
    = os_path_exists o' (join ["r"] ".treeignore") /\
  os_read_lines o (join ["r"] ".treeignore")
    = os_read_lines o' (join ["r"] ".treeignore") /\
  os_path_exists o' ["r"; "b.txt"] = false /\
  main o literal_loader 4 ["r"] = main o' literal_loader 4 ["r"].
Proof.
  intros o o'.
  assert (Hagree : agree_below ["r"] o o') by apply agree_below_scrambled.
  split; [exact Hagree | ].
  split; [reflexivity | split; [reflexivity | split; [reflexivity | ]]].
  exact (main_reads_only_the_root_rule_file o o' literal_loader 4 ["r"] Hagree
           eq_refl eq_refl).
Defined.

Lemma rule_file_cases_witness :
  let o := unreadable (os_of sample_fs) ["r"; ".treeignore"] PermissionError in
  os_path_exists o (join ["r"] ".treeignore") = true /\
  os_read_lines o (join ["r"] ".treeignore") = inl PermissionError /\
  main o sample_loader 4 ["r"] = ([], Raised PermissionError) /\
  exit_status (main o sample_loader 4 ["r"]) <> 0.
Proof.
  intros o. split; [reflexivity | split; [reflexivity | ]].
  exact (proj1 (proj2 (proj2 (rule_file_cases o sample_loader 4 ["r"])))
               PermissionError eq_refl eq_refl).
Defined.

Lemma nothing_survives_witness :
  os_listdir (os_of sample_fs) ["r"] = inr ["b.txt"; "a"; "build"; ".treeignore"] /\
  (forall item, In item ["b.txt"; "a"; "build"; ".treeignore"] ->
     should_ignore (matcher_path (os_of sample_fs) ["r"] ["r"] item) all_rules = true) /\
  print_tree (os_of sample_fs) 1 ["r"] "" ["r"] all_rules =
  (Enter ["r"] ""
   :: filter_events (os_of sample_fs) ["r"] ["r"]
        (sorted ["b.txt"; "a"; "build"; ".treeignore"]), Done) /\
  printed (fst (print_tree (os_of sample_fs) 1 ["r"] "" ["r"] all_rules)) = [].
Proof.
  split; [reflexivity | ]. split; [intros item _; reflexivity | ].
  apply (nothing_survives (os_of sample_fs) 0 ["r"] "" ["r"] all_rules
           ["b.txt"; "a"; "build"; ".treeignore"]);
    [reflexivity | intros item _; reflexivity].
Defined.

Lemma survivors_in_order_witness :
  os_listdir (os_of sample_fs) ["r"] = inr ["b.txt"; "a"; "build"; ".treeignore"] /\
  snd (print_tree (os_of sample_fs) 4 ["r"] "" ["r"] sample_rules) = Done /\
  sorted (filter_items (os_of sample_fs) ["r"] ["r"] sample_rules
            ["b.txt"; "a"; "build"; ".treeignore"])
  = [".treeignore"; "a"; "b.txt"] /\
  let survivors :=
    sorted (filter_items (os_of sample_fs) ["r"] ["r"] sample_rules
              ["b.txt"; "a"; "build"; ".treeignore"]) in
  child_lines "" (fst (print_tree (os_of sample_fs) 4 ["r"] "" ["r"] sample_rules))
  = expected_lines (os_of sample_fs) ["r"] "" survivors /\
  StronglySorted le_name survivors /\
  (forall item,
     In item survivors <->
     In item ["b.txt"; "a"; "build"; ".treeignore"] /\
     should_ignore (matcher_path (os_of sample_fs) ["r"] ["r"] item) sample_rules
     = false).
Proof.
  split; [reflexivity | split; [reflexivity | split; [reflexivity | ]]].
  apply (survivors_in_order (os_of sample_fs) 3 ["r"] "" ["r"] sample_rules
           ["b.txt"; "a"; "build"; ".treeignore"]); reflexivity.
Defined.

Lemma every_entry_is_presented_witness :
  In (Enter ["r"; "a"] "│   ")
     (fst (print_tree (os_of sample_fs) 4 ["r"] "" ["r"] sample_rules)) /\
  os_listdir (os_of sample_fs) ["r"; "a"] = inr ["x.txt"; "sub"] /\
  In "sub" ["x.txt"; "sub"] /\
  matcher_path (os_of sample_fs) ["r"; "a"] ["r"] "sub" = "a/sub/" /\
  In (Match (matcher_path (os_of sample_fs) ["r"; "a"] ["r"] "sub"))
     (fst (print_tree (os_of sample_fs) 4 ["r"] "" ["r"] sample_rules)).
Proof.
  assert (Hin : In (Enter ["r"; "a"] "│   ")
            (fst (print_tree (os_of sample_fs) 4 ["r"] "" ["r"] sample_rules)))
    by (vm_compute; tauto).
  assert (Hsub : In "sub" ["x.txt"; "sub"]) by (simpl; tauto).
  split; [exact Hin | split; [reflexivity | split; [exact Hsub | ]]].
  split; [reflexivity | ].
  exact (every_entry_is_presented (os_of sample_fs) ["r"] sample_rules 4 ["r"] ""
           ["r"; "a"] "│   " ["x.txt"; "sub"] "sub" Hin eq_refl Hsub).
Defined.

Lemma one_root_line_witness :
  load_treeignore_patterns (os_of sample_fs) sample_loader (join ["r"] ".treeignore")
    = inr sample_rules /\
  exists rest,
    printed (fst (main (os_of sample_fs) sample_loader 4 ["r"]))
    = RootLine (root_name_of ["r"]) :: rest /\
    (forall name, ~ In (RootLine name) rest) /\
    root_name_of ["r"] <> "" /\
    (["r"] = [] -> root_name_of ["r"] = "/") /\
    (forall dir name, name <> "" -> ["r"] = dir ++ [name] ->
       root_name_of ["r"] = name).
Proof.
  split; [reflexivity | ].
  apply (one_root_line (os_of sample_fs) sample_loader 4 ["r"] sample_rules).
  reflexivity.
Defined.

Lemma print_arg_layout_witness :
  In (Print (DirLine "│   " "├── " "sub/"))
     (fst (print_tree (os_of sample_fs) 4 ["r"] "" ["r"] sample_rules)) /\
  exists bs b,
    (exists item, "sub/" = (item ++ "/")%string) /\
    print_arg (DirLine "│   " "├── " "sub/") =
    ("" ++ indents bs ++ connector_of b ++ Fore_BLUE ++ Style_BRIGHT ++ "sub/")%string.
Proof.
  assert (Hin : In (Print (DirLine "│   " "├── " "sub/"))
            (fst (print_tree (os_of sample_fs) 4 ["r"] "" ["r"] sample_rules)))
    by (vm_compute; tauto).
  split; [exact Hin | ].
  exact (print_arg_layout (os_of sample_fs) ["r"] sample_rules 4 ["r"] ""
           (DirLine "│   " "├── " "sub/") Hin).
Defined.
